(** * Shallow embedding of [kalman_filter] (src/kalman_filter.py)

    Numbers are float64 values idealised as exact rationals, with NaN kept
    as a separate value that every arithmetic operation propagates and every
    comparison answers [false] to.  numpy arrays are list-backed matrices and
    vectors with their shape; the operations check shapes (and broadcast) as
    numpy does and report [ValueError] otherwise.  Python lists live in an
    explicit heap, so that the aliasing created by [[None] * n] * (n + 1) is
    modelled exactly.  The two library routines the function calls that are
    not numpy arithmetic (scipy's [Rotation.from_matrix(..).as_euler('XYZ')]
    and numpy's [pinv]) are parameters of the development. *)

From Stdlib Require Import List Arith Lia QArith Qround Bool.
From Stdlib Require Strings.String Strings.Ascii ZArith.
From Stdlib Require Import Permutation.
Import ListNotations.

Open Scope nat_scope.
Set Warnings "-register-all".

(** ** float64 values *)

Inductive num := Num (q : Q) | NaN.

Definition isnan (a : num) : bool := match a with NaN => true | Num _ => false end.

(** Results are kept in lowest terms ([Qred] does not change the value). *)
Definition nlift (f : Q -> Q -> Q) (a b : num) : num :=
  match a, b with Num x, Num y => Num (Qred (f x y)) | _, _ => NaN end.

Definition nadd := nlift Qplus.
Definition nsub := nlift Qminus.
Definition nmul := nlift Qmult.

(** [a > b] and [a < b]; both are [False] as soon as one side is NaN. *)
Definition ngt (a b : num) : bool :=
  match a, b with Num x, Num y => negb (Qle_bool x y) | _, _ => false end.
Definition nlt (a b : num) : bool := ngt b a.

(** [np.pi], the double closest to pi, as an exact rational. *)
Definition np_pi : Q := 884279719003555 # 281474976710656.

(** ** numpy arrays *)

Record mat := mk_mat { rows : nat; cols : nat; mdata : list (list num) }.

Definition build_data (r c : nat) (f : nat -> nat -> num) : list (list num) :=
  map (fun i => map (f i) (seq 0 c)) (seq 0 r).
Arguments build_data : simpl never.

(** An array computed entry by entry (every numpy operation below). *)
Definition build (r c : nat) (f : nat -> nat -> num) : mat :=
  mk_mat r c (build_data r c f).

Definition at_ (m : mat) (i j : nat) : num := nth j (nth i (mdata m) []) NaN.

(** One- or two-dimensional array, as returned by [np.array(list_of_rows)]. *)
Inductive arr := A1 (v : list num) | A2 (m : mat).

Inductive exc := ValueError | TypeError | IndexError.

(** Sums as numpy accumulates them, from [0]. *)
Fixpoint nsum (n : nat) (f : nat -> num) : num :=
  match n with 0 => Num 0 | S k => nadd (nsum k f) (f k) end.

(** [A @ B] *)
Definition mm (A B : mat) : exc + mat :=
  if cols A =? rows B
  then inr (build (rows A) (cols B)
              (fun i j => nsum (cols A) (fun k => nmul (at_ A i k) (at_ B k j))))
  else inl ValueError.

(** [A @ v] *)
Definition mv (A : mat) (v : list num) : exc + list num :=
  if cols A =? length v
  then inr (map (fun i => nsum (cols A) (fun k => nmul (at_ A i k) (nth k v NaN)))
                (seq 0 (rows A)))
  else inl ValueError.

(** numpy broadcasting of one dimension. *)
Definition bdim (a b : nat) : option nat :=
  if a =? b then Some a else if a =? 1 then Some b else if b =? 1 then Some a else None.

Definition bidx (d i : nat) : nat := if d =? 1 then 0 else i.

(** Element-wise binary operation on two matrices, with broadcasting. *)
Definition mbin (op : num -> num -> num) (A B : mat) : exc + mat :=
  match bdim (rows A) (rows B), bdim (cols A) (cols B) with
  | Some r, Some c =>
      inr (build r c (fun i j => op (at_ A (bidx (rows A) i) (bidx (cols A) j))
                                    (at_ B (bidx (rows B) i) (bidx (cols B) j))))
  | _, _ => inl ValueError
  end.

(** Element-wise binary operation on two vectors, with broadcasting. *)
Definition vbin (op : num -> num -> num) (u v : list num) : exc + list num :=
  match bdim (length u) (length v) with
  | Some n => inr (map (fun i => op (nth (bidx (length u) i) u NaN)
                                    (nth (bidx (length v) i) v NaN)) (seq 0 n))
  | None => inl ValueError
  end.

(** [A.T] *)
Definition tr (A : mat) : mat := build (cols A) (rows A) (fun i j => at_ A j i).

(** [np.eye(k)] *)
Definition eye (k : nat) : mat :=
  build k k (fun i j => if i =? j then Num 1 else Num 0).

(** [np.kron(A, B)] *)
Definition kron (A B : mat) : mat :=
  build (rows A * rows B) (cols A * cols B)
    (fun i j => nmul (at_ A (i / rows B) (j / cols B))
                     (at_ B (i mod rows B) (j mod cols B))).

(** [A * s] for a Python scalar [s] *)
Definition mscale (A : mat) (s : Q) : mat :=
  build (rows A) (cols A) (fun i j => nmul (at_ A i j) (Num s)).

(** [np.full((r, c), v)] *)
Definition full (r c : nat) (v : Q) : mat := build r c (fun _ _ => Num v).

(** [np.zeros([r, c])] *)
Definition zeros2 (r c : nat) : mat := full r c 0.

(** [A[i, j] = v] *)
Definition mset (A : mat) (i j : nat) (v : num) : exc + mat :=
  if (i <? rows A) && (j <? cols A)
  then inr (build (rows A) (cols A)
              (fun a b => if (a =? i) && (b =? j) then v else at_ A a b))
  else inl IndexError.

(** [np.diag(v)] *)
Definition diag (v : list num) : mat :=
  build (length v) (length v) (fun i j => if i =? j then nth i v NaN else Num 0).

(** [A[i]], the [i]-th row of a matrix. *)
Definition mrow (A : mat) (i : nat) : exc + list num :=
  if i <? rows A then inr (nth i (mdata A) []) else inl IndexError.

(** [A[lo:hi]] on the first axis (here [0 <= lo <= hi <= rows A]). *)
Definition mslice (A : mat) (lo hi : nat) : mat :=
  mk_mat (hi - lo) (cols A) (firstn (hi - lo) (skipn lo (mdata A))).

(** [v[idx] = vals] for an index array [idx] *)
Definition vset_idx (v : list num) (idx : list nat) (vals : list num) : exc + list num :=
  if negb (length idx =? length vals) then inl ValueError
  else if forallb (fun k => k <? length v) idx
  then inr (map (fun k =>
                   match find (fun p => fst p =? k) (combine idx vals) with
                   | Some p => snd p
                   | None => nth k v NaN
                   end) (seq 0 (length v)))
  else inl IndexError.

(** [np.arange(a, b, s)] for [s > 0] *)
Definition arange (a b s : nat) : list nat :=
  filter (fun k => (a <=? k) && ((k - a) mod s =? 0)) (seq a (b - a)).

(** [np.linalg.pinv(S)]: numpy returns an array of the transposed shape;
    its entries come from the library routine [pinv_at]. *)
Definition np_pinv (pinv_at : mat -> nat -> nat -> num) (S : mat) : mat :=
  build (cols S) (rows S) (pinv_at S).

(** ** Python heap and the function's state/error monad *)

Inductive pyval := PNone | PVec (v : list num) | PMat (m : mat) | PRef (l : nat).

(** The two history tables [x] and [P] of the function. *)
Inductive tbl := Tx | TP.

(** The heap maps a location to a Python list; [wlog] records, newest first,
    every assignment [t[a][k] = v] to one of the two tables. *)
Record store := mk_store { heap : list (list pyval); wlog : list (tbl * nat * nat * pyval) }.

Definition empty_store : store := mk_store [] [].

Inductive outcome (A : Type) := Ok (a : A) | Raise (e : exc) (line : nat).
Arguments Ok {A}. Arguments Raise {A}.

Definition M (A : Type) := store -> outcome A * store.

Definition ret {A} (a : A) : M A := fun s => (Ok a, s).
Definition bind {A B} (m : M A) (k : A -> M B) : M B :=
  fun s => match m s with
           | (Ok a, s') => k a s'
           | (Raise e l, s') => (Raise e l, s')
           end.
Definition raise {A} (e : exc) (line : nat) : M A := fun s => (Raise e line, s).

(** A numpy or Python operation on source line [line]. *)
Definition lift {A} (line : nat) (r : exc + A) : M A :=
  match r with inl e => raise e line | inr a => ret a end.

Notation "x <- m ;; k" := (bind m (fun x => k))
  (at level 61, m at next level, right associativity).
Notation "m ;;; k" := (bind m (fun _ => k)) (at level 61, right associativity).

Fixpoint list_set {A} (l : list A) (i : nat) (v : A) : list A :=
  match l, i with
  | [], _ => []
  | _ :: t, 0 => v :: t
  | a :: t, S i' => a :: list_set t i' v
  end.

(** Allocate a new Python list; its location is returned. *)
Definition alloc (l : list pyval) : M nat :=
  fun s => (Ok (length (heap s)), mk_store (heap s ++ [l]) (wlog s)).

(** [lst[i]] *)
Definition getitem (loc i line : nat) : M pyval :=
  fun s => match nth_error (heap s) loc with
           | Some l => match nth_error l i with
                       | Some v => (Ok v, s)
                       | None => (Raise IndexError line, s)
                       end
           | None => (Raise IndexError line, s)
           end.

(** [lst[i] = v] *)
Definition setitem (loc i : nat) (v : pyval) (line : nat) : M unit :=
  fun s => match nth_error (heap s) loc with
           | Some l => if i <? length l
                       then (Ok tt, mk_store (list_set (heap s) loc (list_set l i v)) (wlog s))
                       else (Raise IndexError line, s)
           | None => (Raise IndexError line, s)
           end.

Definition record (t : tbl) (a k : nat) (v : pyval) : M unit :=
  fun s => (Ok tt, mk_store (heap s) ((t, a, k, v) :: wlog s)).

(** [tab[a][k]]: the row is fetched, then subscripted. *)
Definition get2 (tab a k line : nat) : M pyval :=
  row <- getitem tab a line ;;
  match row with
  | PRef l => getitem l k line
  | _ => raise TypeError line
  end.

(** [tab[a][k] = v] *)
Definition set2 (t : tbl) (tab a k : nat) (v : pyval) (line : nat) : M unit :=
  row <- getitem tab a line ;;
  match row with
  | PRef l => setitem l k v line ;;; record t a k v
  | _ => raise TypeError line
  end.

(** [[[None] * n] * (n + 1)]: one row list, and an outer list holding
    [n + 1] references to it. *)
Definition new_table (n : nat) : M nat :=
  row <- alloc (repeat PNone n) ;;
  alloc (repeat (PRef row) (n + 1)).

Definition as_vec (v : pyval) (line : nat) : M (list num) :=
  match v with PVec u => ret u | _ => raise TypeError line end.
Definition as_mat (v : pyval) (line : nat) : M mat :=
  match v with PMat m => ret m | _ => raise TypeError line end.

(** ** The function [kalman_filter] *)

(** A 4x4 homogeneous pose, entry [(i, j)] for [i, j < 4]. *)
Definition pose := nat -> nat -> num.

(** The external library routines: scipy's
    [Rotation.from_matrix(pose[:3, :3]).as_euler('XYZ')] (which may raise),
    and the entries of [np.linalg.pinv]. *)
Record Lib := mk_lib {
  as_euler_XYZ : pose -> exc + (num * num * num);
  pinv_at : mat -> nat -> nat -> num }.

(** Lines 60-69: positions [pose[:3, -1]] and Euler angles per frame,
    [nan] triples for absent frames. *)
Fixpoint extract (lib : Lib) (poses : list (option pose))
  : exc + (list (list num) * list (list num)) :=
  match poses with
  | [] => inr ([], [])
  | Some p :: ps =>
      match as_euler_XYZ lib p with
      | inl e => inl e
      | inr (a, b, c) =>
          match extract lib ps with
          | inl e => inl e
          | inr (pos, ang) => inr ([p 0 3; p 1 3; p 2 3] :: pos, [a; b; c] :: ang)
          end
      end
  | None :: ps =>
      match extract lib ps with
      | inl e => inl e
      | inr (pos, ang) => inr ([NaN; NaN; NaN] :: pos, [NaN; NaN; NaN] :: ang)
      end
  end.

(** [np.array(list_of_rows)]: the empty list gives a 1-D array. *)
Definition np_array (rs : list (list num)) : arr :=
  match rs with
  | [] => A1 []
  | r :: _ => A2 (mk_mat (length rs) (length r) rs)
  end.

(** Line 74: [angles[~np.isnan(angles)]], row-major. *)
Definition flat_nonnan (a : arr) : list num :=
  match a with
  | A1 v => filter (fun x => negb (isnan x)) v
  | A2 m => concat (map (filter (fun x => negb (isnan x))) (mdata m))
  end.

Fixpoint chunks3 (l : list num) : list (list num) :=
  match l with
  | a :: b :: c :: t => [a; b; c] :: chunks3 t
  | _ => []
  end.

(** [.reshape((-1, 3))] *)
Definition reshape3 (l : list num) : exc + mat :=
  if length l mod 3 =? 0 then inr (mk_mat (length l / 3) 3 (chunks3 l))
  else inl ValueError.

(** Lines 77-80, one entry: [cur] against the already adjusted [prev]. *)
Definition unwrap_step (prev cur : num) : num :=
  if ngt (nsub cur prev) (Num ((18 # 10) * np_pi)) then nsub cur (Num (2 * np_pi))
  else if nlt (nsub cur prev) (Num ((-18 # 10) * np_pi)) then nadd cur (Num (2 * np_pi))
  else cur.

(** Lines 75-80: rows [1 ..] in order, each entry [j < ncol] compared with
    the previous row as already modified. *)
Fixpoint unwrap_loop (ncol : nat) (prev : list num) (rest : list (list num))
  : list (list num) :=
  match rest with
  | [] => []
  | r :: t =>
      let r' := map (fun j => unwrap_step (nth j prev NaN) (nth j r NaN)) (seq 0 ncol) in
      r' :: unwrap_loop ncol r' t
  end.

Definition unwrap_rows (rs : list (list num)) : list (list num) :=
  match rs with
  | [] => []
  | r0 :: t => r0 :: unwrap_loop (length r0) r0 t
  end.

(** Line 81: [a[~np.isnan(a)] = s], filling the non-NaN slots in order. *)
Fixpoint fill (l s : list num) : list num * list num :=
  match l with
  | [] => ([], s)
  | a :: t =>
      if isnan a then let (t', s') := fill t s in (a :: t', s')
      else match s with
           | x :: s0 => let (t', s') := fill t s0 in (x :: t', s')
           | [] => (l, [])
           end
  end.

Fixpoint fill_rows (rs : list (list num)) (s : list num) : list (list num) :=
  match rs with
  | [] => []
  | r :: t => let (r', s') := fill r s in r' :: fill_rows t s'
  end.

Definition fill_arr (a : arr) (s : list num) : arr :=
  match a with
  | A1 v => A1 (fst (fill v s))
  | A2 m => A2 (mk_mat (rows m) (cols m) (fill_rows (mdata m) s))
  end.

(** Lines 73-81: the angle unwrapping. *)
Definition unwrap_angles (angles : arr) : exc + arr :=
  match reshape3 (flat_nonnan angles) with
  | inl e => inl e
  | inr nna => inr (fill_arr angles (concat (unwrap_rows (mdata nna))))
  end.

Definition list_min (l : list nat) : nat :=
  match l with [] => 0 | h :: t => fold_left Nat.min t h end.
Definition list_max (l : list nat) : nat :=
  match l with [] => 0 | h :: t => fold_left Nat.max t h end.

(** Lines 88-90: cut the frames before the first and after the last frame
    whose position is not NaN. *)
Definition trim (positions angles : arr) : M (mat * mat) :=
  match positions with
  | A1 _ => raise IndexError 88      (* [positions[:, 0]] on a 1-D array *)
  | A2 pm =>
      if cols pm =? 0 then raise IndexError 88 else
      let col := map (fun r => nth 0 r NaN) (mdata pm) in
      let idx := filter (fun k => negb (isnan (nth k col NaN))) (seq 0 (length col)) in
      match idx with
      | [] => raise ValueError 89    (* [np.min] of an empty array *)
      | _ =>
          let lo := list_min idx in
          let hi := list_max idx in
          match angles with
          | A2 am => ret (mslice pm lo (hi + 1), mslice am lo (hi + 1))
          | A1 _ => raise IndexError 90   (* not reached: 1-D with [positions] *)
          end
      end
  end.

(** Lines 100-102: the per-channel transition block. *)
Definition F3 (dt : Q) : mat :=
  mk_mat 3 3 [[Num 1; Num dt; Num ((1 # 2) * dt ^ 2)];
              [Num 0; Num 1; Num dt];
              [Num 0; Num 0; Num 1]].

(** Lines 106-108: the per-channel process-noise block. *)
Definition Q3 (dt : Q) : mat :=
  mk_mat 3 3 [[Num (dt ^ 4 / 4); Num (dt ^ 3 / 2); Num (dt ^ 2 / 2)];
              [Num (dt ^ 3 / 2); Num (dt ^ 2); Num dt];
              [Num (dt ^ 2 / 2); Num dt; Num 1]].

(** Lines 112-114: [H[i, 3 * i] = 1] for [i] in [range(6)]. *)
Fixpoint obs_loop (is : list nat) (H : mat) : exc + mat :=
  match is with
  | [] => inr H
  | i :: t => match mset H i (3 * i) (Num 1) with
              | inl e => inl e
              | inr H' => obs_loop t H'
              end
  end.

Definition obs_matrix : exc + mat := obs_loop (seq 0 6) (zeros2 6 18).

(** Lines 133-141, one iteration. *)
Definition kf_step (lib : Lib) (positions angles : mat) (x P K z : nat)
    (F Qn H R : mat) (i : nat) : M unit :=
  (* 134 *)
  pi <- lift 134 (mrow positions i) ;;
  ai <- lift 134 (mrow angles i) ;;
  setitem z i (PVec (pi ++ ai)) 134 ;;;
  (* 136 *)
  Pp <- (v <- get2 P i (i - 1) 136 ;; as_mat v 136) ;;
  PHt <- lift 136 (mm Pp (tr H)) ;;
  Pp' <- (v <- get2 P i (i - 1) 136 ;; as_mat v 136) ;;
  HP <- lift 136 (mm H Pp') ;;
  HPHt <- lift 136 (mm HP (tr H)) ;;
  S <- lift 136 (mbin nadd HPHt R) ;;
  Ki <- lift 136 (mm PHt (np_pinv (pinv_at lib) S)) ;;
  setitem K i (PMat Ki) 136 ;;;
  (* 137 *)
  xp <- (v <- get2 x i (i - 1) 137 ;; as_vec v 137) ;;
  Kc <- (v <- getitem K i 137 ;; as_mat v 137) ;;
  zi <- (v <- getitem z i 137 ;; as_vec v 137) ;;
  xp' <- (v <- get2 x i (i - 1) 137 ;; as_vec v 137) ;;
  Hx <- lift 137 (mv H xp') ;;
  inn <- lift 137 (vbin nsub zi Hx) ;;
  Kinn <- lift 137 (mv Kc inn) ;;
  xi <- lift 137 (vbin nadd xp Kinn) ;;
  set2 Tx x i i (PVec xi) 137 ;;;
  (* 138 *)
  K1 <- (v <- getitem K i 138 ;; as_mat v 138) ;;
  K1H <- lift 138 (mm K1 H) ;;
  A <- lift 138 (mbin nsub (eye 9) K1H) ;;
  Pp2 <- (v <- get2 P i (i - 1) 138 ;; as_mat v 138) ;;
  AP <- lift 138 (mm A Pp2) ;;
  K2 <- (v <- getitem K i 138 ;; as_mat v 138) ;;
  K2H <- lift 138 (mm K2 H) ;;
  B <- lift 138 (mbin nsub (eye 9) K2H) ;;
  APB <- lift 138 (mm AP (tr B)) ;;
  K3 <- (v <- getitem K i 138 ;; as_mat v 138) ;;
  K3R <- lift 138 (mm K3 R) ;;
  K4 <- (v <- getitem K i 138 ;; as_mat v 138) ;;
  KRK <- lift 138 (mm K3R (tr K4)) ;;
  Pi <- lift 138 (mbin nadd APB KRK) ;;
  set2 TP P i i (PMat Pi) 138 ;;;
  (* 140 *)
  xc <- (v <- get2 x i i 140 ;; as_vec v 140) ;;
  Fx <- lift 140 (mv F xc) ;;
  set2 Tx x (i + 1) i (PVec Fx) 140 ;;;
  (* 141 *)
  Pc <- (v <- get2 P i i 141 ;; as_mat v 141) ;;
  FP <- lift 141 (mm F Pc) ;;
  FPF <- lift 141 (mm FP (tr F)) ;;
  Pn <- lift 141 (mbin nadd FPF Qn) ;;
  set2 TP P (i + 1) i (PMat Pn) 141.

Fixpoint kf_loop (lib : Lib) (positions angles : mat) (x P K z : nat)
    (F Qn H R : mat) (is : list nat) : M unit :=
  match is with
  | [] => ret tt
  | i :: t => kf_step lib positions angles x P K z F Qn H R i ;;;
              kf_loop lib positions angles x P K z F Qn H R t
  end.

(** The initial covariance of line 126. *)
Definition P_init (P0 : Q) : mat := kron (eye 6) (full 3 3 P0).

(** Line 103: [F = np.kron(np.eye(6), F)]. *)
Definition F_mat (dt : Q) : mat := kron (eye 6) (F3 dt).

(** Line 109: [Q = np.kron(np.eye(6), Q) * sq_sigma_a]. *)
Definition Q_mat (dt sq_sigma_a : Q) : mat := mscale (kron (eye 6) (Q3 dt)) sq_sigma_a.

(** Lines 93-144: from the trimmed arrays on. *)
Definition kf_core (lib : Lib) (positions angles : mat) (dt P0 sq_sigma_a r : Q)
  : M unit :=
  let n := rows positions in
  x <- new_table n ;;
  P <- new_table n ;;
  K <- alloc (repeat PNone n) ;;
  z <- alloc (repeat PNone n) ;;
  let F := F_mat dt in
  let Qn := Q_mat dt sq_sigma_a in
  H <- lift 114 obs_matrix ;;
  let R := diag (repeat (Num r) 6) in
  p0 <- lift 121 (mrow positions 0) ;;
  x0 <- lift 121 (vset_idx (repeat (Num 0) 18) (arange 0 9 3) p0) ;;
  a0 <- lift 122 (mrow angles 0) ;;
  x0' <- lift 122 (vset_idx x0 (arange 9 18 3) a0) ;;
  set2 Tx x 0 0 (PVec x0') 123 ;;;
  set2 TP P 0 0 (PMat (P_init P0)) 126 ;;;
  xa <- (v <- get2 x 0 0 129 ;; as_vec v 129) ;;
  Fx <- lift 129 (mv F xa) ;;
  set2 Tx x 1 0 (PVec Fx) 129 ;;;
  Pa <- (v <- get2 P 0 0 130 ;; as_mat v 130) ;;
  FP <- lift 130 (mm F Pa) ;;
  FPF <- lift 130 (mm FP (tr F)) ;;
  Pn <- lift 130 (mbin nadd FPF Qn) ;;
  set2 TP P 1 0 (PMat Pn) 130 ;;;
  kf_loop lib positions angles x P K z F Qn H R (seq 1 (n - 1)) ;;;
  raise TypeError 144.   (* [np.zeros()] without a shape *)

(** Lines 47-144; the function has no [return] statement. *)
Definition kalman_filter_m (lib : Lib) (poses : list (option pose))
    (dt P0 sq_sigma_a r : Q) : M unit :=
  pa <- lift 66 (extract lib poses) ;;
  angles <- lift 74 (unwrap_angles (np_array (snd pa))) ;;
  pm_am <- trim (np_array (fst pa)) angles ;;
  kf_core lib (fst pm_am) (snd pm_am) dt P0 sq_sigma_a r.

Definition kalman_filter (lib : Lib) (poses : list (option pose))
    (dt P0 sq_sigma_a r : Q) : outcome unit * store :=
  kalman_filter_m lib poses dt P0 sq_sigma_a r empty_store.

(** Configurations whose four values lie in [[-10^6, 10^6]].  In this
    range Python's float [**] on lines 100-108 cannot overflow (it raises
    [OverflowError] past about [1.8e308]), and every covariance entry up to
    the [pinv] of line 136 stays finite; numpy's arithmetic elsewhere does
    not raise on large or non-finite values.  So no exception of the float
    program depends on rounding there, and the exact rationals of this
    embedding follow its control flow. *)
Definition float_safe_config (dt P0 sq_sigma_a r : Q) : Prop :=
  (-1000000 <= dt <= 1000000)%Q /\ (-1000000 <= P0 <= 1000000)%Q /\
  (-1000000 <= sq_sigma_a <= 1000000)%Q /\ (-1000000 <= r <= 1000000)%Q.

(** ** Concrete instances used to run the embedding *)

(** [pinv] of a diagonal matrix (the innovation covariance of this filter is
    one): reciprocal of the non-zero diagonal entries. *)
Definition pinv_diag (S : mat) (i j : nat) : num :=
  if i =? j then match at_ S i i with
                 | Num q => if Qeq_bool q 0 then Num 0 else Num (/ q)
                 | NaN => NaN
                 end
  else Num 0.

(** Euler angles of poses whose rotation block is the identity. *)
Definition euler_identity (p : pose) : exc + (num * num * num) := inr (Num 0, Num 0, Num 0).

Definition lib0 : Lib := mk_lib euler_identity pinv_diag.

(** A pose with identity rotation and translation [(tx, ty, tz)]. *)
Definition pose_at (tx ty tz : Q) : pose :=
  fun i j => if (i =? j) && (i <? 4) then Num 1
             else if (j =? 3) && (i <? 3) then Num (match i with 0 => tx | 1 => ty | _ => tz end)
             else Num 0.

(** ** Observations on results *)

(** Same number (rationals compared by value), NaN with NaN. *)
Definition nclose (a b : num) : bool :=
  match a, b with
  | Num x, Num y => Qeq_bool x y
  | NaN, NaN => true
  | _, _ => false
  end.

Fixpoint list_nclose (l1 l2 : list num) : bool :=
  match l1, l2 with
  | [], [] => true
  | a :: t1, b :: t2 => nclose a b && list_nclose t1 t2
  | _, _ => false
  end.

(** Column [j] of the angles after unwrapping (empty on an error). *)
Definition angle_col (j : nat) (r : exc + arr) : list num :=
  match r with
  | inr (A2 m) => map (fun row => nth j row NaN) (mdata m)
  | inr (A1 v) => v
  | inl _ => []
  end.

Definition nbetween (lo hi : Q) (a : num) : bool :=
  match a with Num x => negb (Qle_bool x lo) && negb (Qle_bool hi x) | NaN => false end.

Fixpoint strictly_increasing (l : list num) : bool :=
  match l with
  | a :: (b :: _) as t => ngt b a && strictly_increasing t
  | _ => true
  end.

(** A 3-channel angle array whose first channel is [l], the others [0]. *)
Definition one_channel (l : list Q) : list (list num) :=
  map (fun q => [Num q; Num 0; Num 0]) l.

(** Claims C10 and C6 speak about tables written through any row and about
    present and missing rows of the angle array. *)

(** Assignments [t[a][k] = v], in program order. *)
Fixpoint run_writes (t : nat) (ws : list (nat * nat * pyval)) : M unit :=
  match ws with
  | [] => ret tt
  | (a, k, v) :: ws' => set2 Tx t a k v 95 ;;; run_writes t ws'
  end.

(** The value of the last assignment to column [k], through whatever row. *)
Definition last_write (k : nat) (ws : list (nat * nat * pyval)) : pyval :=
  fold_left (fun acc '(a, k', v) => if k' =? k then v else acc) ws PNone.

Definition all_nan (r : list num) : bool := forallb isnan r.
Definition no_nan (r : list num) : bool := forallb (fun a => negb (isnan a)) r.

(** The rows of the present (NaN-free) frames, in frame order. *)
Definition present_rows (rs : list (list num)) : list (list num) := filter no_nan rs.

(** Line 130 (and 141): the predicted covariance [F @ P @ F.T + Q]. *)
Definition predict_cov (F Qn P : mat) : exc + mat :=
  match mm F P with
  | inr FP => match mm FP (tr F) with
              | inr FPF => mbin nadd FPF Qn
              | inl e => inl e
              end
  | inl e => inl e
  end.

(** Lines 136-137: the state after the measurement update, from the
    predicted covariance [Pp], predicted state [xp] and measurement [z]. *)
Definition update_state (lib : Lib) (H R Pp : mat) (xp z : list num) : exc + list num :=
  match mm Pp (tr H), mm H Pp with
  | inr PHt, inr HP =>
      match mm HP (tr H) with
      | inr HPHt =>
          match mbin nadd HPHt R with
          | inr Sm =>
              match mm PHt (np_pinv (pinv_at lib) Sm), mv H xp with
              | inr Ki, inr Hx =>
                  match vbin nsub z Hx with
                  | inr inn => match mv Ki inn with
                               | inr Kinn => vbin nadd xp Kinn
                               | inl e => inl e
                               end
                  | inl e => inl e
                  end
              | inl e, _ | _, inl e => inl e
              end
          | inl e => inl e
          end
      | inl e => inl e
      end
  | inl e, _ | _, inl e => inl e
  end.

(** The observation matrix built on lines 112-114. *)
Definition H_obs : mat := match obs_matrix with inr H => H | inl _ => zeros2 6 18 end.

(** The vector or matrix of the [k]-th newest table assignment. *)
Definition wvec (s : store) (k : nat) : list num :=
  match nth_error (wlog s) k with Some (_, _, _, PVec v) => v | _ => [] end.
Definition wmat (s : store) (k : nat) : mat :=
  match nth_error (wlog s) k with Some (_, _, _, PMat m) => m | _ => mk_mat 0 0 [] end.

(** ** Notions used by the theorems *)

(** The rational value of a number ([0] for NaN), and "[a] is the number
    [q]" up to rational equality. *)
Definition nval (a : num) : Q := match a with Num q => q | NaN => 0%Q end.
Definition nv (a : num) (q : Q) : Prop := exists q', a = Num q' /\ (q' == q)%Q.

(** [sum_{k < n} f k] over the rationals. *)
Fixpoint qsum (n : nat) (f : nat -> Q) : Q :=
  match n with 0 => 0%Q | S k => (qsum k f + f k)%Q end.


(** [m] is an [n x n] array whose entries are the values [f i j]. *)
Definition mrep (m : mat) (n : nat) (f : nat -> nat -> Q) : Prop :=
  rows m = n /\ cols m = n /\ forall i j, i < n -> j < n -> nv (at_ m i j) (f i j).


(** The pattern of [np.kron(np.eye(6), B)]: entries of one 3 x 3 diagonal block. *)
Definition blk (i j : nat) : Q := if i / 3 =? j / 3 then 1%Q else 0%Q.

(** [Q3 dt] is the outer product [g g^T] of [g = (dt^2/2, dt, 1)]. *)
Definition q3g (dt : Q) (a : nat) : Q :=
  match a with 0 => dt ^ 2 / 2 | 1 => dt | _ => 1 end.


(** Rows of the position and angle arrays have three entries. *)
Definition len3 (r : list num) : Prop := length r = 3.

(** A frame's angle row as [extract] produces it for a missing frame (all
    NaN) or a present one whose angles are numbers. *)
Definition row_ok (r : list num) : Prop := len3 r /\ (all_nan r = true \/ no_nan r = true).

(** A present row: three numbers, no NaN. *)
Definition good (r : list num) : Prop := len3 r /\ no_nan r = true.

(** What the unwrapping does to an angle array [ang], read off its
    result [out]: missing rows stay as they are, and the present rows,
    in frame order, are recomputed one at a time, each from the raw row
    and the previous present row as already recomputed. *)
Definition unwrap_char (ang out : list (list num)) : Prop :=
  length out = length ang /\ Forall len3 out /\
  (forall i, all_nan (nth i ang []) = true -> nth i out [] = nth i ang []) /\
  length (present_rows out) = length (present_rows ang) /\
  nth 0 (present_rows out) [] = nth 0 (present_rows ang) [] /\
  (forall i j, S i < length (present_rows ang) -> j < 3 ->
     nth j (nth (S i) (present_rows out) []) NaN =
     unwrap_step (nth j (nth i (present_rows out) []) NaN)
                 (nth j (nth (S i) (present_rows ang) []) NaN)).

(** Tracks of identity-rotation poses: with a missing interior frame,
    two present frames, one present frame. *)
Definition track_gap : list (option pose) := [Some (pose_at 0 0 0); None; Some (pose_at 2 0 0)].
Definition track_two : list (option pose) := [Some (pose_at 0 0 0); Some (pose_at 0 0 0)].
Definition track_one : list (option pose) := [Some (pose_at 0 0 0)].

(** * The other functions of [kalman_filter.py] *)

(** Exceptions of the other functions of [kalman_filter.py], with the
    [numpy] ones of [exc]. *)
Inductive pyexc := PyErr (e : exc) | AttributeError | AssertionError | KeyError
                 | NameError | LinAlgError.

Module Loader.
Import Strings.String Strings.Ascii.

(** A value read by [json.load]. *)
Inductive jval :=
  | JNull | JBool (b : bool) | JNum (n : num) | JStr (s : string)
  | JArr (l : list jval) | JObj (kv : list (string * jval)).

(** Python characters are Unicode code points; here the Latin-1 range,
    one [ascii] (8-bit) character each. *)
Definition is_space (c : ascii) : bool :=
  let n := nat_of_ascii c in
  ((9 <=? n) && (n <=? 13)) || ((28 <=? n) && (n <=? 32)) || (n =? 133) || (n =? 160).

Definition is_digit (c : ascii) : bool :=
  let n := nat_of_ascii c in (48 <=? n) && (n <=? 57).

Definition dval (c : ascii) : Z := Z.of_nat (nat_of_ascii c - 48).

Fixpoint drop_space (s : string) : string :=
  match s with
  | String c t => if is_space c then drop_space t else s
  | EmptyString => s
  end.

Fixpoint all_space (s : string) : bool :=
  match s with
  | String c t => is_space c && all_space t
  | EmptyString => true
  end.

(** Digits after the first one: a digit, or one [_] followed by a digit. *)
Fixpoint digits_rest (acc : Z) (s : string) : Z * string :=
  match s with
  | String c t =>
      if is_digit c then digits_rest (acc * 10 + dval c)%Z t
      else if Ascii.eqb c "_" then
        match t with
        | String d u => if is_digit d then digits_rest (acc * 10 + dval d)%Z u else (acc, s)
        | EmptyString => (acc, s)
        end
      else (acc, s)
  | EmptyString => (acc, s)
  end.

(** [int(s)] for a string [s] (base 10): surrounding white space, an
    optional sign, decimal digits with single underscores between them;
    [None] is Python's [ValueError].  No limit on the number of digits (as
    before Python 3.11). *)
Definition py_int (s : string) : option Z :=
  let s1 := drop_space s in
  let '(sg, s2) :=
    match s1 with
    | String c t => if Ascii.eqb c "-" then ((-1)%Z, t)
                    else if Ascii.eqb c "+" then (1%Z, t) else (1%Z, s1)
    | EmptyString => (1%Z, s1)
    end in
  match s2 with
  | String c t =>
      if is_digit c then
        let '(v, r) := digits_rest (dval c) t in
        if all_space r then Some (sg * v)%Z else None
      else None
  | EmptyString => None
  end.

(** Decimal digits of [n], most significant first ([fuel > n]). *)
Fixpoint ndigits (fuel n : nat) : list nat :=
  match fuel with
  | 0 => []
  | S f => if n <? 10 then [n] else ndigits f (n / 10) ++ [n mod 10]
  end.

(** [str(n)] for a natural number [n]. *)
Definition py_str (n : nat) : string :=
  string_of_list_ascii (map (fun d => ascii_of_nat (48 + d)) (ndigits (S n) n)).

(** Dictionary lookup [d[k]] ([None] when [k not in d]). *)
Fixpoint lookup {A} (k : string) (d : list (string * A)) : option A :=
  match d with
  | [] => None
  | (k', v) :: t => if String.eqb k k' then Some v else lookup k t
  end.

Fixpoint nlist_eqb (a b : list nat) : bool :=
  match a, b with
  | [], [] => true
  | x :: a', y :: b' => Nat.eqb x y && nlist_eqb a' b'
  | _, _ => false
  end.

Definition shape_eqb (a b : option (list nat)) : bool :=
  match a, b with
  | Some x, Some y => nlist_eqb x y
  | None, None => true
  | _, _ => false
  end.

(** The shape of [np.array(v)]; [None] for a ragged nesting, on which
    numpy (1.24 and later) raises [ValueError].  Scalars, [None], strings
    and dictionaries are 0-dimensional. *)
Fixpoint np_shape (v : jval) : option (list nat) :=
  match v with
  | JArr [] => Some [0]
  | JArr (h :: t) =>
      match np_shape h with
      | Some s => if forallb (fun e => shape_eqb (np_shape e) (Some s)) t
                  then Some (S (List.length t) :: s) else None
      | None => None
      end
  | _ => Some []
  end.

(** Lines 22-26: [object_poses.keys()] for every frame value; only a
    dictionary has [keys], any other value raises [AttributeError]. *)
Fixpoint frame_dicts (d : list (string * jval))
  : (pyexc * nat) + list (string * list (string * jval)) :=
  match d with
  | [] => inr []
  | (k, JObj kv) :: t =>
      match frame_dicts t with inl e => inl e | inr r => inr ((k, kv) :: r) end
  | (_, _) :: _ => inl (AttributeError, 25)
  end.

(** [obj_ids.add(obj_id)] over the frames in order: the set's elements, in
    the order first seen. *)
Definition set_add (s : list string) (k : string) : list string :=
  if existsb (String.eqb k) s then s else s ++ [k].

Definition obj_id_set (frames : list (string * list (string * jval))) : list string :=
  fold_left (fun s fr => fold_left set_add (map fst (snd fr)) s) frames [].

(** Lines 33-41 for one frame. *)
Definition read_pose (frames : list (string * list (string * jval))) (obj_id : string)
    (frame : nat) : (pyexc * nat) + option jval :=
  match lookup (py_str frame) frames with
  | None => inr None
  | Some objs =>
      match lookup obj_id objs with
      | None => inr None
      | Some v =>
          match np_shape v with
          | None => inl (PyErr ValueError, 35)
          | Some s => if nlist_eqb s [4; 4] then inr (Some v)
                      else inl (AssertionError, 36)
          end
      end
  end.

Fixpoint mapE {A B} (f : A -> (pyexc * nat) + B) (l : list A) : (pyexc * nat) + list B :=
  match l with
  | [] => inr []
  | a :: t => match f a with
              | inl e => inl e
              | inr b => match mapE f t with inl e => inl e | inr r => inr (b :: r) end
              end
  end.

(** [range(last_frame + 1)] *)
Definition frame_range (last_frame : Z) : list nat := seq 0 (Z.to_nat (last_frame + 1)).

(** Lines 30-42 for one object: [last_frame] from the last key of the file. *)
Definition object_track (frames : list (string * list (string * jval))) (obj_id : string)
  : (pyexc * nat) + list (option jval) :=
  match rev frames with
  | [] => inl (PyErr IndexError, 31)
  | (k, _) :: _ =>
      match py_int k with
      | None => inl (PyErr ValueError, 31)
      | Some last_frame => mapE (read_pose frames obj_id) (frame_range last_frame)
      end
  end.

(** [load_object_poses] after [json.load]: [d] is the file's dictionary, in
    its key order.  A Python set is iterated in an order of its own;
    [order] gives it from the elements in the order first added. *)
Definition load_object_poses (order : list string -> list string) (d : list (string * jval))
  : (pyexc * nat) + list (string * list (option jval)) :=
  match frame_dicts d with
  | inl e => inl e
  | inr frames =>
      mapE (fun obj_id => match object_track frames obj_id with
                          | inl e => inl e
                          | inr ps => inr (obj_id, ps)
                          end) (order (obj_id_set frames))
  end.

(** Notions the statements use: a frame value that is a dictionary, the
    objects of a frame value, an object seen in some frame, and the pose
    the file gives for an object in the frame keyed [str(frame)]. *)
Definition is_dict (v : jval) : Prop := exists kv, v = JObj kv.

Definition dict_of (v : jval) : list (string * jval) :=
  match v with JObj kv => kv | _ => [] end.

Definition has_object (d : list (string * jval)) (obj_id : string) : Prop :=
  exists k kv v, In (k, JObj kv) d /\ In (obj_id, v) kv.

Definition frame_obj (d : list (string * jval)) (obj_id : string) (frame : nat) : option jval :=
  match lookup (py_str frame) d with
  | Some (JObj kv) => lookup obj_id kv
  | _ => None
  end.

(** The character of a decimal digit. *)
Definition chr (d : nat) : ascii := ascii_of_nat (48 + d).

Local Open Scope string_scope.

(** [np.eye(4).tolist()] as read from a file, and small pose files. *)
Definition jeye4 : jval :=
  JArr (map (fun i => JArr (map (fun j => JNum (Num (if Nat.eqb i j then 1 else 0)%Q)) (List.seq 0 4))) (List.seq 0 4)).

Definition file_no_objects : list (string * jval) := [("x", JObj []); ("y", JObj [])].
Definition file_list_frame : list (string * jval) := [("0", JObj [("a", jeye4)]); ("1", JArr [])].
Definition file_bad_key : list (string * jval) := [("0", JObj [("a", jeye4)]); ("end", JObj [])].
Definition file_padded_key : list (string * jval) := [("0", JObj [("a", jeye4)]); ("07", JObj [("b", jeye4)])].
Definition file_two_frames : list (string * jval) := [("0", JObj [("a", jeye4)]); ("1", JObj [])].
Definition file_bad_shape : list (string * jval) := [("0", JObj [("a", JArr [JNum (Num 1)])]); ("1", JObj [])].

End Loader.

(** Lines 194-196 of the script: [first_none] ends as the index of the
    last present pose; [None] when the name is never bound. *)
Definition first_none (poses : list (option mat)) : option nat :=
  fold_left (fun fn i => match nth i poses None with Some _ => Some i | None => fn end)
            (seq 0 (length poses)) None.

(** Lines 197-199, on the list [poses] updated in place; [inv] is
    [np.linalg.inv] ([None] where it raises [LinAlgError]). *)
Fixpoint normalize_loop (inv : mat -> option mat) (fn : option nat) (is : list nat)
    (poses : list (option mat)) : (pyexc * nat) + list (option mat) :=
  match is with
  | [] => inr poses
  | i :: t =>
      match nth i poses None with
      | None => normalize_loop inv fn t poses
      | Some p =>
          match fn with
          | None => inl (NameError, 199)
          | Some k =>
              match nth k poses None with
              | None => inl (LinAlgError, 199)   (* [np.linalg.inv(None)] *)
              | Some pk =>
                  match inv pk with
                  | None => inl (LinAlgError, 199)
                  | Some ik =>
                      match mm ik p with
                      | inl e => inl (PyErr e, 199)
                      | inr m => normalize_loop inv fn t (list_set poses i (Some m))
                      end
                  end
              end
          end
      end
  end.

Definition normalize_poses (inv : mat -> option mat) (poses : list (option mat))
  : (pyexc * nat) + list (option mat) :=
  normalize_loop inv (first_none poses) (seq 0 (length poses)) poses.

(** What the loop leaves at index [j]: missing frames stay missing, a
    present pose [p] becomes [ik @ p]. *)
Definition rel_at (ik : mat) (poses : list (option mat)) (j : nat) (o : option mat) : Prop :=
  (nth j poses None = None -> o = None) /\
  forall p, nth j poses None = Some p -> exists m, mm ik p = inr m /\ o = Some m.
(** [np.linalg.inv] on translation poses (identity rotation); it raises
    when the bottom-right entry is [0]. *)
Definition inv_translation (m : mat) : option mat :=
  match at_ m 3 3 with
  | Num q => if Qeq_bool q 0 then None
             else Some (build 4 4 (pose_at (- nval (at_ m 0 3)) (- nval (at_ m 1 3)) (- nval (at_ m 2 3))))
  | NaN => None
  end.

Definition mtrack : list (option mat) :=
  [Some (build 4 4 (pose_at 1 0 0)); None; Some (build 4 4 (pose_at 3 0 0)); None].
Definition mtrack_singular : list (option mat) :=
  [Some (build 4 4 (pose_at 1 0 0)); Some (zeros2 4 4)].

(** The state vector [x] built at lines 119-123: the three entries of
    each channel are the position, then two zeros. *)
Definition init_layout (p a : list num) : list num :=
  concat (map (fun v => [v; Num 0; Num 0]) (p ++ a)).

(** A monadic action that only adds records in front of the log. *)
Definition grows {A} (m : M A) : Prop := forall s, exists ws, wlog (snd (m s)) = ws ++ wlog s.

(** The colours ['b'], ['r'], ['g'] of line 181. *)
Inductive color := Cb | Cr | Cg.

(** [0.01] as a float64. *)
Definition c001 : Q := 5764607523034235 # 576460752303423488.

(** [pose[:3, :3]] *)
Definition rot (p : pose) : mat := build 3 3 p.

(** [[0.01, 0, 0]], [[0, 0.01, 0]], [[0, 0, 0.01]] *)
Definition unit_dir (i : nat) : list num := map (fun k => if k =? i then Num c001 else Num 0) (seq 0 3).

(** Lines 167-174 for one pose. *)
Definition cood (p : pose) : (exc * nat) + list (list num) :=
  let p_object := [p 0 3; p 1 3; p 2 3] in
  match mv (rot p) (unit_dir 0) with
  | inl e => inl (e, 169)
  | inr p_x =>
      match mv (rot p) (unit_dir 1) with
      | inl e => inl (e, 170)
      | inr p_y =>
          match mv (rot p) (unit_dir 2) with
          | inl e => inl (e, 171)
          | inr p_z => inr [p_object ++ p_x; p_object ++ p_y; p_object ++ p_z]
          end
      end
  end.

(** Lines 164-175 *)
Fixpoint coods_of (poses : list (option pose)) : (exc * nat) + list (list (list num)) :=
  match poses with
  | [] => inr []
  | None :: t => coods_of t
  | Some p :: t =>
      match cood p with
      | inl e => inl e
      | inr c => match coods_of t with inl e => inl e | inr cs => inr (c :: cs) end
      end
  end.

(** Lines 163-185: the three [ax.quiver] calls, each with its colour and
    the rows [(X, Y, Z, U, V, W)] of its arrows. [np.array([])] has shape
    [(0,)], so [coods[:, i, :]] raises when no pose is drawn. *)
Definition plot_poses (poses : list (option pose)) : (exc * nat) + list (color * list (list num)) :=
  match coods_of (firstn 100 poses) with
  | inl e => inl e
  | inr [] => inl (IndexError, 182)
  | inr cs => inr (map (fun ic => (snd ic, map (fun cd => nth (fst ic) cd []) cs))
                       [(0, Cb); (1, Cr); (2, Cg)])
  end.

(** The present poses, in order. *)
Fixpoint present (poses : list (option pose)) : list pose :=
  match poses with
  | [] => []
  | None :: t => present t
  | Some p :: t => p :: present t
  end.

(** Sample inputs. *)
Definition xs18 : list num := map (fun k => Num (inject_Z (Z.of_nat k))) (seq 0 18).
Definition pm_gap : mat :=
  mk_mat 5 3 [[NaN; NaN; NaN]; [Num 1; Num 2; Num 3]; [NaN; NaN; NaN];
              [Num 4; Num 5; Num 6]; [NaN; NaN; NaN]].
Definition am_gap : mat :=
  mk_mat 5 3 [[NaN; NaN; NaN]; [Num 0; Num 0; Num 0]; [NaN; NaN; NaN];
              [Num 1; Num 0; Num 0]; [NaN; NaN; NaN]].
Definition pm_one : mat := mk_mat 1 3 [[Num 1; Num 2; Num 3]].
Definition am_one : mat := mk_mat 1 3 [[Num 0; Num 0; Num 0]].
Definition track_late : list (option pose) := repeat None 100 ++ [Some (pose_at 1 2 3)].
Definition track_plot : list (option pose) := [Some (pose_at 1 2 3); None; Some (pose_at 4 5 6)].

(** * Theorems *)

(** ** Angle unwrapping *)

(** Claim C7: the channel [3.0, 3.1, -3.1, -3.0] unwraps to
    [3.0, 3.1, -3.1 + 2 pi, -3.0 + 2 pi], i.e. [3.0, 3.1, 3.18.., 3.28..], a
    strictly increasing sequence; the other channels stay [0]. *)
Theorem unwrap_crossing_pi :
  let r := unwrap_angles (np_array (one_channel [3; 31 # 10; -31 # 10; -3]%Q)) in
  list_nclose (angle_col 0 r)
    [Num 3; Num (31 # 10); Num ((-31 # 10) + 2 * np_pi); Num (-3 + 2 * np_pi)] = true /\
  nbetween (318 # 100) (319 # 100) (nth 2 (angle_col 0 r) NaN) = true /\
  nbetween (328 # 100) (329 # 100) (nth 3 (angle_col 0 r) NaN) = true /\
  strictly_increasing (angle_col 0 r) = true /\
  list_nclose (angle_col 1 r) (repeat (Num 0) 4) = true /\
  list_nclose (angle_col 2 r) (repeat (Num 0) 4) = true.
Proof. vm_compute. repeat split. Qed.

(** Claim C6 (counterexample): in [3.0, -3.1, -1.0] the jump [-6.1] at the
    second sample makes the code add [2 pi] to that sample only; the third
    sample stays [-1.0] instead of being shifted to [-1.0 + 2 pi]. *)
Lemma unwrap_shifts_current_only_cex :
  list_nclose (angle_col 0 (unwrap_angles (np_array (one_channel [3; -31 # 10; -1]%Q))))
    [Num 3; Num ((-31 # 10) + 2 * np_pi); Num (-1)] = true /\
  nclose (nth 2 (angle_col 0 (unwrap_angles (np_array (one_channel [3; -31 # 10; -1]%Q)))) NaN)
         (Num (-1 + 2 * np_pi)) = false.
Proof. vm_compute. split; reflexivity. Qed.

(** ** The history tables [x] and [P] *)

Section Tables.

Lemma nth_error_app_len {A} (l r : list A) k :
  nth_error (l ++ r) (length l + k) = nth_error r k.
Proof. induction l; simpl; auto. Qed.

Lemma list_set_app_len {A} (l r : list A) k v :
  list_set (l ++ r) (length l + k) v = l ++ list_set r k v.
Proof. induction l; simpl; [reflexivity | now rewrite IHl]. Qed.

Lemma length_list_set {A} (l : list A) i v : length (list_set l i v) = length l.
Proof. revert i; induction l; intros [|i]; simpl; auto. Qed.

Lemma nth_error_list_set {A} (l : list A) i k v :
  nth_error (list_set l i v) k =
  if (i =? k) && (i <? length l) then Some v else nth_error l k.
Proof.
  revert i k; induction l as [|x l IH]; intros [|i] [|k]; simpl; auto.
  destruct (i =? k); reflexivity.
Qed.

Lemma new_table_spec n s :
  new_table n s =
  (Ok (length (heap s) + 1),
   mk_store (heap s ++ [repeat PNone n; repeat (PRef (length (heap s))) (n + 1)]) (wlog s)).
Proof.
  unfold new_table, bind, alloc; simpl.
  rewrite length_app, <- app_assoc; reflexivity.
Qed.

Lemma nth_error_pre0 {A} (pre : list A) r1 r2 : nth_error (pre ++ [r1; r2]) (length pre) = Some r1.
Proof. induction pre; simpl; auto. Qed.

Lemma nth_error_pre1 {A} (pre : list A) r1 r2 : nth_error (pre ++ [r1; r2]) (length pre + 1) = Some r2.
Proof. induction pre; simpl; auto. Qed.

Lemma list_set_pre0 {A} (pre : list A) r1 r2 r :
  list_set (pre ++ [r1; r2]) (length pre) r = pre ++ [r; r2].
Proof. induction pre; simpl; auto; now rewrite IHpre. Qed.

Lemma set2_row pre row n k v a s line :
  heap s = pre ++ [row; repeat (PRef (length pre)) (n + 1)] ->
  a <= n -> k < length row ->
  set2 Tx (length pre + 1) a k v line s =
  (Ok tt, mk_store (pre ++ [list_set row k v; repeat (PRef (length pre)) (n + 1)])
                   ((Tx, a, k, v) :: wlog s)).
Proof.
  intros Hh Ha Hk. destruct s as [h lg]; simpl in *; subst h.
  unfold set2, bind, getitem, setitem, record; simpl.
  rewrite nth_error_pre1, nth_error_repeat by lia. simpl.
  rewrite nth_error_pre0.
  replace (k <? length row) with true by (symmetry; apply Nat.ltb_lt; exact Hk).
  now rewrite list_set_pre0.
Qed.

Lemma get2_row pre row n k a s line :
  heap s = pre ++ [row; repeat (PRef (length pre)) (n + 1)] ->
  a <= n -> k < length row ->
  get2 (length pre + 1) a k line s = (Ok (nth k row PNone), s).
Proof.
  intros Hh Ha Hk. destruct s as [h lg]; simpl in *; subst h.
  unfold get2, bind, getitem; simpl.
  rewrite nth_error_pre1, nth_error_repeat by lia. simpl.
  rewrite nth_error_pre0, (nth_error_nth' row PNone Hk). reflexivity.
Qed.

Lemma run_writes_spec pre n ws : forall row s,
  heap s = pre ++ [row; repeat (PRef (length pre)) (n + 1)] ->
  length row = n ->
  Forall (fun w => fst (fst w) <= n /\ snd (fst w) < n) ws ->
  exists lg,
  run_writes (length pre + 1) ws s =
  (Ok tt, mk_store (pre ++ [fold_left (fun r '(_, k, v) => list_set r k v) ws row;
                            repeat (PRef (length pre)) (n + 1)]) lg).
Proof.
  induction ws as [|[[a k] v] ws IH]; intros row s Hh Hl Hw.
  - exists (wlog s). simpl. unfold ret. destruct s; simpl in *; subst; reflexivity.
  - apply Forall_cons_iff in Hw as [[Ha Hk] Hw']; simpl in Ha, Hk.
    simpl. unfold bind at 1. rewrite (set2_row pre row n k v a s 95 Hh Ha) by lia.
    apply IH; [reflexivity | now rewrite length_list_set | exact Hw'].
Qed.

Lemma fold_list_set_nth (ws : list (nat * nat * pyval)) : forall (row : list pyval) acc k,
  k < length row -> nth_error row k = Some acc ->
  Forall (fun w => fst (fst w) <= length row /\ snd (fst w) < length row) ws ->
  nth_error (fold_left (fun r '(_, k', v) => list_set r k' v) ws row) k =
  Some (fold_left (fun acc '(_, k', v) => if k' =? k then v else acc) ws acc).
Proof.
  induction ws as [|[[a k'] v] ws IH]; intros row acc k Hk Hn Hw; simpl; auto.
  apply Forall_cons_iff in Hw as [[Ha Hk'] Hw']; simpl in Ha, Hk'.
  apply IH.
  - now rewrite length_list_set.
  - rewrite nth_error_list_set.
    replace (k' <? length row) with true by (symmetry; apply Nat.ltb_lt; exact Hk').
    destruct (k' =? k); simpl; auto.
  - rewrite length_list_set. exact Hw'.
Qed.

End Tables.

Lemma fold_list_set_length (ws : list (nat * nat * pyval)) : forall (row : list pyval),
  length (fold_left (fun r '(_, k', v) => list_set r k' v) ws row) = length row.
Proof.
  induction ws as [|[[a k'] v] ws IH]; intros row; simpl; auto.
  rewrite IH. apply length_list_set.
Qed.

(** Claim C10: [[[None] * n] * (n + 1)] is an outer list of [n + 1]
    references to one single row list; after any sequence of assignments
    [t[a'][k'] = v] (rows [a' <= n], columns [k' < n]), reading [t[a][k]]
    and [t[b][k]] through any two rows [a, b <= n] gives the same value,
    namely the value of the last assignment to column [k], whatever row it
    went through. *)
Theorem table_rows_alias n ws a b k s :
  a <= n -> b <= n -> k < n ->
  Forall (fun w => fst (fst w) <= n /\ snd (fst w) < n) ws ->
  nth_error (heap (snd (new_table n s))) (length (heap s) + 1)
    = Some (repeat (PRef (length (heap s))) (n + 1)) /\
  fst ((t <- new_table n ;;
        run_writes t ws ;;;
        va <- get2 t a k 94 ;;
        vb <- get2 t b k 94 ;;
        ret (va, vb)) s)
    = Ok (last_write k ws, last_write k ws).
Proof.
  intros Ha Hb Hk Hw. split.
  - rewrite new_table_spec. simpl. apply nth_error_pre1.
  - unfold bind at 1. rewrite new_table_spec.
    destruct (run_writes_spec (heap s) n ws (repeat PNone n)
                (mk_store (heap s ++ [repeat PNone n;
                                      repeat (PRef (length (heap s))) (n + 1)]) (wlog s))
                eq_refl (repeat_length _ _) Hw) as [lg E].
    unfold bind at 1. rewrite E.
    set (row := fold_left _ ws (repeat PNone n)).
    assert (Hl : length row = n)
      by (unfold row; rewrite fold_list_set_length; apply repeat_length).
    assert (Hn : nth k row PNone = last_write k ws).
    { apply nth_error_nth.
      unfold row, last_write. apply fold_list_set_nth.
      - now rewrite repeat_length.
      - now apply nth_error_repeat.
      - now rewrite repeat_length. }
    unfold bind.
    rewrite (get2_row (heap s) row n k a) by (simpl; auto; lia).
    rewrite (get2_row (heap s) row n k b) by (simpl; auto; lia).
    simpl. now rewrite Hn.
Qed.

Lemma table_rows_alias_witness :
  let ws := [(0, 1, PVec [Num 1]); (2, 0, PVec [Num 2]); (1, 1, PNone)] in
  (0 <= 2 /\ 2 <= 2 /\ 0 < 2 /\
   Forall (fun w => fst (fst w) <= 2 /\ snd (fst w) < 2) ws) /\
  nth_error (heap (snd (new_table 2 empty_store))) (length (heap empty_store) + 1)
    = Some (repeat (PRef (length (heap empty_store))) (2 + 1)) /\
  fst ((t <- new_table 2 ;;
        run_writes t ws ;;;
        va <- get2 t 0 0 94 ;;
        vb <- get2 t 2 0 94 ;;
        ret (va, vb)) empty_store)
    = Ok (last_write 0 ws, last_write 0 ws).
Proof.
  intros ws. split.
  - repeat split; try lia. repeat constructor; simpl; lia.
  - apply (table_rows_alias 2 ws 0 2 0 empty_store); try lia.
    repeat constructor; simpl; lia.
Defined.

(** ** The filter core *)

Lemma obs_matrix_ok : obs_matrix = inr H_obs /\ rows H_obs = 6 /\ cols H_obs = 18.
Proof. vm_compute. auto. Qed.

(** With at least two frames, the first iteration stores [x[1][1]] and then
    raises at line 138; the assignments made are those of lines 123, 126,
    129, 130 and 137. *)
Lemma F_mat_shape dt : rows (F_mat dt) = 18 /\ cols (F_mat dt) = 18.
Proof. split; reflexivity. Qed.

Lemma Q_mat_shape dt sq : rows (Q_mat dt sq) = 18 /\ cols (Q_mat dt sq) = 18.
Proof. split; reflexivity. Qed.

Lemma P_init_shape P0 : rows (P_init P0) = 18 /\ cols (P_init P0) = 18.
Proof. split; reflexivity. Qed.

Ltac shapes :=
  rewrite ?(proj1 (F_mat_shape _)), ?(proj2 (F_mat_shape _)),
          ?(proj1 (Q_mat_shape _ _)), ?(proj2 (Q_mat_shape _ _)),
          ?(proj1 (P_init_shape _)), ?(proj2 (P_init_shape _)),
          ?(proj1 (proj2 obs_matrix_ok)), ?(proj2 (proj2 obs_matrix_ok)).

Ltac run_core :=
  unfold kf_core; rewrite (proj1 obs_matrix_ok);
  change (arange 0 9 3) with [0; 3; 6]; change (arange 9 18 3) with [9; 12; 15];
  repeat progress (cbn -[build_data nsum at_ nlift Nat.div Nat.modulo Qred
                         F_mat Q_mat P_init H_obs]; shapes).

Ltac norm :=
  repeat progress (cbn -[build_data nsum at_ nlift Nat.div Nat.modulo Qred
                         F_mat Q_mat P_init H_obs]; shapes).

(** With at least two frames, the first iteration stores [x[1][1]] and then
    raises at line 138; the assignments made are those of lines 123, 126,
    129, 130 and 137. *)
Lemma kf_core_two_frames (lib : Lib) (pm am : mat) (dt P0 sq r : Q)
    (p0 p1 q0 q1 : list num) prest qrest :
  mdata pm = p0 :: p1 :: prest -> rows pm = length (mdata pm) ->
  mdata am = q0 :: q1 :: qrest -> 2 <= rows am ->
  length p0 = 3 -> length p1 = 3 -> length q0 = 3 -> length q1 = 3 ->
  exists h x0 x10 Pn x11,
    kf_core lib pm am dt P0 sq r empty_store =
      (Raise ValueError 138,
       mk_store h [(Tx, 1, 1, PVec x11); (TP, 1, 0, PMat Pn); (Tx, 1, 0, PVec x10);
                   (TP, 0, 0, PMat (P_init P0)); (Tx, 0, 0, PVec x0)]) /\
    length x0 = 18 /\
    mv (F_mat dt) x0 = inr x10 /\
    predict_cov (F_mat dt) (Q_mat dt sq) (P_init P0) = inr Pn /\
    update_state lib H_obs (diag (repeat (Num r) 6)) Pn x10 (p1 ++ q1) = inr x11.
Proof.
  intros Hp Hrp Ha Hra L0 L1 L2 L3.
  destruct p0 as [|x0 [|y0 [|z0 [|]]]]; try discriminate.
  destruct p1 as [|x1 [|y1 [|z1 [|]]]]; try discriminate.
  destruct q0 as [|u0 [|v0 [|w0 [|]]]]; try discriminate.
  destruct q1 as [|u1 [|v1 [|w1 [|]]]]; try discriminate.
  destruct pm as [rp cp dp], am as [ra ca da]; simpl in Hp, Hrp, Ha, Hra; subst dp da rp.
  destruct ra as [|[|ra]]; [lia|lia|].
  run_core.
  do 5 eexists. split; [reflexivity|].
  split; [reflexivity|]. split; [reflexivity|]. split.
  - unfold predict_cov, mm, mbin. norm. reflexivity.
  - unfold update_state, mm, mv, mbin, vbin. norm. reflexivity.
Qed.

(** With one frame the loop is empty and line 144 raises. *)
Lemma kf_core_one_frame (lib : Lib) (pm am : mat) (dt P0 sq r : Q)
    (p0 q0 : list num) qrest :
  mdata pm = [p0] -> rows pm = 1 ->
  mdata am = q0 :: qrest -> 1 <= rows am ->
  length p0 = 3 -> length q0 = 3 ->
  exists h x0 x10 Pn,
    kf_core lib pm am dt P0 sq r empty_store =
      (Raise TypeError 144,
       mk_store h [(TP, 1, 0, PMat Pn); (Tx, 1, 0, PVec x10);
                   (TP, 0, 0, PMat (P_init P0)); (Tx, 0, 0, PVec x0)]) /\
    length x0 = 18 /\
    mv (F_mat dt) x0 = inr x10 /\
    predict_cov (F_mat dt) (Q_mat dt sq) (P_init P0) = inr Pn.
Proof.
  intros Hp Hrp Ha Hra L0 L2.
  destruct p0 as [|x0 [|y0 [|z0 [|]]]]; try discriminate.
  destruct q0 as [|u0 [|v0 [|w0 [|]]]]; try discriminate.
  destruct pm as [rp cp dp], am as [ra ca da]; simpl in Hp, Hrp, Ha, Hra; subst dp da rp.
  destruct ra as [|ra]; [lia|].
  run_core.
  do 4 eexists. split; [reflexivity|].
  split; [reflexivity|]. split; [reflexivity|].
  unfold predict_cov, mm, mbin. norm. reflexivity.
Qed.

Lemma nv_ext a x y : nv a x -> (x == y)%Q -> nv a y.
Proof. intros [q [-> H]] E. exists q. split; [reflexivity|]. now rewrite H. Qed.

Lemma nv_nlift f a b x y :
  (forall x x' y y', x == x' -> y == y' -> f x y == f x' y')%Q ->
  nv a x -> nv b y -> nv (nlift f a b) (f x y).
Proof.
  intros Hf [p [-> Hp]] [q [-> Hq]]. exists (Qred (f p q)). split; [reflexivity|].
  rewrite Qred_correct. now apply Hf.
Qed.

Lemma nv_add a b x y : nv a x -> nv b y -> nv (nadd a b) (x + y).
Proof. apply nv_nlift. intros. now rewrite H, H0. Qed.
Lemma nv_mul a b x y : nv a x -> nv b y -> nv (nmul a b) (x * y).
Proof. apply nv_nlift. intros. now rewrite H, H0. Qed.
Lemma nv_Num q : nv (Num q) q.
Proof. exists q. split; reflexivity. Qed.

Lemma nv_nsum n f g : (forall k, k < n -> nv (f k) (g k)) -> nv (nsum n f) (qsum n g).
Proof.
  induction n; intros H; simpl.
  - apply nv_Num.
  - apply nv_add; auto.
Qed.






Lemma qsum_nonneg n f : (forall k, (k < n)%nat -> 0 <= f k)%Q -> (0 <= qsum n f)%Q.
Proof.
  induction n; intros H; simpl; [apply Qle_refl|].
  apply (Qle_trans _ (0 + 0)); [unfold Qle; simpl; lia|]. apply Qplus_le_compat; auto.
Qed.





Lemma nth_map_seq {A} (g : nat -> A) d r : forall s i, i < r ->
  nth i (map g (seq s r)) d = g (s + i).
Proof.
  induction r; intros s i Hi; [lia|]. destruct i; simpl.
  - now rewrite Nat.add_0_r.
  - rewrite IHr by lia. f_equal. lia.
Qed.

Lemma at_build r c f i j : i < r -> j < c -> at_ (build r c f) i j = f i j.
Proof.
  intros Hi Hj. unfold at_, build, build_data; simpl.
  rewrite nth_map_seq by exact Hi. now rewrite nth_map_seq by exact Hj.
Qed.

Lemma bidx_lt d i : i < d -> bidx d i = i.
Proof. unfold bidx. destruct (Nat.eqb_spec d 1); lia. Qed.

Lemma mm_rep A B n a b C : mrep A n a -> mrep B n b -> mm A B = inr C ->
  mrep C n (fun i j => qsum n (fun k => a i k * b k j))%Q.
Proof.
  intros (HrA & HcA & HA) (HrB & HcB & HB). unfold mm.
  rewrite HcA, HrB, Nat.eqb_refl. intros E; injection E as <-.
  split; [simpl; congruence|]. split; [simpl; congruence|].
  intros i j Hi Hj. rewrite at_build by lia.
  apply nv_nsum; intros k Hk. apply nv_mul; auto.
Qed.

Lemma tr_rep A n a : mrep A n a -> mrep (tr A) n (fun i j => a j i).
Proof.
  intros (Hr & Hc & H). unfold tr. split; [simpl; easy|]. split; [simpl; easy|].
  intros i j Hi Hj. rewrite at_build by lia. auto.
Qed.

Lemma mbin_add_rep A B n a b C : mrep A n a -> mrep B n b -> mbin nadd A B = inr C ->
  mrep C n (fun i j => a i j + b i j)%Q.
Proof.
  intros (HrA & HcA & HA) (HrB & HcB & HB). unfold mbin, bdim.
  rewrite HrA, HcA, HrB, HcB, Nat.eqb_refl. intros E; injection E as <-.
  split; [easy|]. split; [easy|].
  intros i j Hi Hj. rewrite at_build by lia. rewrite !bidx_lt by lia.
  apply nv_add; auto.
Qed.

Lemma predict_rep F Qn P n f q p Pn :
  mrep F n f -> mrep Qn n q -> mrep P n p -> predict_cov F Qn P = inr Pn ->
  mrep Pn n (fun i j => qsum n (fun k => qsum n (fun l => f i l * p l k) * f j k) + q i j)%Q.
Proof.
  intros HF HQ HP. unfold predict_cov.
  destruct (mm F P) as [e|FP] eqn:E1; [discriminate|].
  destruct (mm FP (tr F)) as [e|FPF] eqn:E2; [discriminate|].
  intros E3.
  pose proof (mm_rep _ _ _ _ _ _ HF HP E1) as HFP.
  pose proof (mm_rep _ _ _ _ _ _ HFP (tr_rep _ _ _ HF) E2) as HFPF.
  exact (mbin_add_rep _ _ _ _ _ _ HFPF HQ E3).
Qed.


Lemma kron_eye_rep B b :
  rows B = 3 -> cols B = 3 -> (forall a c, a < 3 -> c < 3 -> nv (at_ B a c) (b a c)) ->
  mrep (kron (eye 6) B) 18 (fun i j => blk i j * b (i mod 3) (j mod 3))%Q.
Proof.
  intros Hr Hc HB. unfold kron. rewrite Hr, Hc.
  split; [reflexivity|]. split; [reflexivity|].
  intros i j Hi Hj. rewrite at_build by (simpl; lia).
  assert (i / 3 < 6) by (apply Nat.Div0.div_lt_upper_bound; lia).
  assert (j / 3 < 6) by (apply Nat.Div0.div_lt_upper_bound; lia).
  assert (i mod 3 < 3) by (apply Nat.mod_upper_bound; lia).
  assert (j mod 3 < 3) by (apply Nat.mod_upper_bound; lia).
  apply nv_mul; [|auto].
  unfold eye, blk. rewrite at_build by lia.
  destruct (i / 3 =? j / 3); apply nv_Num.
Qed.





Lemma Q3_rep dt a c : a < 3 -> c < 3 ->
  nv (at_ (Q3 dt) a c) (q3g dt a * q3g dt c)%Q.
Proof.
  intros Ha Hc.
  destruct a as [|[|[|a]]]; try lia; destruct c as [|[|[|c]]]; try lia;
    (eapply nv_ext; [apply nv_Num|]); simpl; field.
Qed.

Lemma F_mat_rep dt :
  mrep (F_mat dt) 18 (fun i j => blk i j * nval (at_ (F3 dt) (i mod 3) (j mod 3)))%Q.
Proof.
  apply (kron_eye_rep (F3 dt) (fun a c => nval (at_ (F3 dt) a c))); [reflexivity|reflexivity|].
  intros a c Ha Hc.
  (destruct a as [|[|[|a]]]; try lia; destruct c as [|[|[|c]]]; try lia; apply nv_Num).
Qed.
Lemma P_init_rep P0 : mrep (P_init P0) 18 (fun i j => blk i j * P0)%Q.
Proof.
  apply (kron_eye_rep (full 3 3 P0) (fun _ _ => P0)); [reflexivity|reflexivity|].
  intros a c Ha Hc. unfold full. rewrite at_build by lia. apply nv_Num.
Qed.

Lemma Q_mat_rep dt sq :
  mrep (Q_mat dt sq) 18 (fun i j => sq * (blk i j * (q3g dt (i mod 3) * q3g dt (j mod 3))))%Q.
Proof.
  destruct (kron_eye_rep (Q3 dt) (fun a c => q3g dt a * q3g dt c)%Q eq_refl eq_refl
              (Q3_rep dt)) as (Hr & Hc & H).
  unfold Q_mat, mscale. split; [simpl; congruence|]. split; [simpl; congruence|].
  intros i j Hi Hj. rewrite at_build by lia.
  eapply nv_ext; [apply nv_mul; [apply H; auto|apply nv_Num]|]. ring.
Qed.






Lemma nlift_nan_r f a : nlift f a NaN = NaN.
Proof. now destruct a. Qed.
Lemma nlift_nan_l f a : nlift f NaN a = NaN.
Proof. reflexivity. Qed.

Lemma nsum_nan n f : f 0 = NaN -> nsum (S n) f = NaN.
Proof.
  intros H. induction n.
  - simpl. rewrite H. reflexivity.
  - change (nsum (S (S n)) f) with (nadd (nsum (S n) f) (f (S n))). rewrite IHn. reflexivity.
Qed.

Lemma mm_shape A B C : mm A B = inr C -> rows C = rows A /\ cols C = cols B.
Proof. unfold mm. destruct (cols A =? rows B); intros E; inversion E; now split. Qed.

Lemma mv_spec A v w : mv A v = inr w ->
  cols A = length v /\
  w = map (fun i => nsum (cols A) (fun k => nmul (at_ A i k) (nth k v NaN))) (seq 0 (rows A)).
Proof.
  unfold mv. destruct (Nat.eqb_spec (cols A) (length v)); intros E; inversion E; now split.
Qed.

Lemma vbin_spec op u v w : vbin op u v = inr w -> length u = length v ->
  w = map (fun i => op (nth i u NaN) (nth i v NaN)) (seq 0 (length u)).
Proof.
  intros E L. unfold vbin, bdim in E. rewrite L, Nat.eqb_refl in E. injection E as <-.
  rewrite L. apply map_ext_in. intros i Hi. apply in_seq in Hi.
  rewrite !bidx_lt by lia. reflexivity.
Qed.

(** Lines 136-137 with a measurement whose first entry is NaN: every
    entry of the new state is NaN. *)
Lemma update_state_nan lib H R Pp xp z x11 :
  update_state lib H R Pp xp z = inr x11 ->
  rows H = 6 -> length z = 6 -> length xp = 18 -> rows Pp = 18 ->
  isnan (nth 0 z NaN) = true ->
  length x11 = 18 /\ forallb isnan x11 = true.
Proof.
  intros E HrH Lz Lx HrP Hz. unfold update_state in E.
  destruct (mm Pp (tr H)) as [e|PHt] eqn:E1; [destruct (mm H Pp); discriminate|].
  destruct (mm H Pp) as [e|HP] eqn:E2; [discriminate|].
  destruct (mm HP (tr H)) as [e|HPHt] eqn:E3; [discriminate|].
  destruct (mbin nadd HPHt R) as [e|Sm] eqn:E4; [discriminate|].
  destruct (mm PHt (np_pinv (pinv_at lib) Sm)) as [e|Ki] eqn:E5;
    [destruct (mv H xp); discriminate|].
  destruct (mv H xp) as [e|Hx] eqn:E6; [discriminate|].
  destruct (vbin nsub z Hx) as [e|inn] eqn:E7; [discriminate|].
  destruct (mv Ki inn) as [e|Kinn] eqn:E8; [discriminate|].
  destruct (mm_shape _ _ _ E1) as [R1 _].
  destruct (mm_shape _ _ _ E5) as [R5 _].
  destruct (mv_spec _ _ _ E6) as [_ ->].
  apply vbin_spec in E7; [|rewrite length_map, length_seq; lia].
  destruct (mv_spec _ _ _ E8) as [C8 ->].
  rewrite E7, length_map, length_seq, Lz in C8.
  assert (Hinn : nth 0 inn NaN = NaN).
  { rewrite E7, Lz. simpl. destruct (nth 0 z NaN); [discriminate|reflexivity]. }
  set (Kinn := map _ (seq 0 (rows Ki))) in E.
  assert (LK : length Kinn = 18) by (unfold Kinn; rewrite length_map, length_seq; congruence).
  assert (NK : forall k, nth k Kinn NaN = NaN).
  { intros k. destruct (Nat.lt_ge_cases k (length Kinn)) as [Hk|Hk];
      [|now apply nth_overflow].
    unfold Kinn. rewrite nth_map_seq by (unfold Kinn in Hk; rewrite length_map, length_seq in Hk; lia).
    rewrite C8. apply nsum_nan. rewrite Hinn. apply nlift_nan_r. }
  apply vbin_spec in E; [|congruence].
  subst x11. rewrite length_map, length_seq. split; [exact Lx|].
  apply forallb_forall. intros a Ha. apply in_map_iff in Ha as (i & <- & _).
  rewrite NK. unfold nadd. now rewrite nlift_nan_r.
Qed.

(** ** From the input poses to the trimmed arrays *)

Lemma extract_shape lib poses pos ang : extract lib poses = inr (pos, ang) ->
  length pos = length poses /\ length ang = length poses /\ Forall len3 pos /\ Forall len3 ang.
Proof.
  revert pos ang. induction poses as [|[p|] ps IH]; intros pos ang E; simpl in E.
  - injection E as <- <-. repeat split; constructor.
  - destruct (as_euler_XYZ lib p) as [e|[[a b] c]]; [discriminate|].
    destruct (extract lib ps) as [e|[pos' ang']]; [discriminate|].
    injection E as <- <-. destruct (IH _ _ eq_refl) as (L1 & L2 & F1 & F2).
    simpl. repeat split; try lia; constructor; auto; reflexivity.
  - destruct (extract lib ps) as [e|[pos' ang']]; [discriminate|].
    injection E as <- <-. destruct (IH _ _ eq_refl) as (L1 & L2 & F1 & F2).
    simpl. repeat split; try lia; constructor; auto; reflexivity.
Qed.

Lemma fill_length l s : length (fst (fill l s)) = length l.
Proof.
  revert s. induction l as [|a t IH]; intros s; simpl; [reflexivity|].
  destruct (isnan a).
  - specialize (IH s). destruct (fill t s). simpl in *. now f_equal.
  - destruct s as [|x s0]; [reflexivity|].
    specialize (IH s0). destruct (fill t s0). simpl in *. now f_equal.
Qed.

Lemma fill_rows_shape rs s : Forall len3 rs ->
  length (fill_rows rs s) = length rs /\ Forall len3 (fill_rows rs s).
Proof.
  revert s. induction rs as [|r t IH]; intros s F; simpl; [split; constructor|].
  inversion F as [|? ? Hr Ht]; subst.
  pose proof (fill_length r s) as L. destruct (fill r s) as [r' s'].
  destruct (IH s' Ht) as [L' F']. simpl in L.
  split; [simpl; now f_equal|]. constructor; [unfold len3 in *; congruence|exact F'].
Qed.

Lemma unwrap_shape ang a' : Forall len3 ang -> unwrap_angles (np_array ang) = inr a' ->
  ang <> [] ->
  exists rs, a' = A2 (mk_mat (length ang) 3 rs) /\ length rs = length ang /\ Forall len3 rs.
Proof.
  intros F E Hne. destruct ang as [|r0 t]; [congruence|].
  unfold unwrap_angles in E. destruct (reshape3 _) as [e|nna]; [discriminate|].
  injection E as <-. simpl. inversion F as [|? ? H0 _]; subst.
  destruct (fill_rows_shape (r0 :: t) (concat (unwrap_rows (mdata nna))) F) as [L F'].
  eexists. split; [unfold len3 in H0; rewrite H0; reflexivity|]. split; [exact L|exact F'].
Qed.

Lemma fold_min_le l h : fold_left Nat.min l h <= h.
Proof.
  revert h. induction l as [|a t IH]; intros h; simpl; [lia|].
  specialize (IH (Nat.min h a)). lia.
Qed.

Lemma fold_max_ge l h : h <= fold_left Nat.max l h.
Proof.
  revert h. induction l as [|a t IH]; intros h; simpl; [lia|].
  specialize (IH (Nat.max h a)). lia.
Qed.

Lemma fold_max_lt l h N : h < N -> Forall (fun x => x < N) l -> fold_left Nat.max l h < N.
Proof.
  revert h. induction l as [|a t IH]; intros h Hh F; simpl; [exact Hh|].
  inversion F; subst. apply IH; [lia|assumption].
Qed.

Lemma Forall_firstn_skipn {A} (P : A -> Prop) l k m :
  Forall P l -> Forall P (firstn k (skipn m l)).
Proof.
  intros F. apply Forall_forall. intros x Hx.
  rewrite Forall_forall in F. apply F.
  rewrite <- (firstn_skipn m l). apply in_or_app. right.
  rewrite <- (firstn_skipn k (skipn m l)). apply in_or_app. now left.
Qed.

Lemma trim_spec pos rs s pm am s' :
  Forall len3 pos -> Forall len3 rs -> length rs = length pos ->
  trim (np_array pos) (A2 (mk_mat (length pos) 3 rs)) s = (Ok (pm, am), s') ->
  s' = s /\ 1 <= rows pm /\ rows pm = length (mdata pm) /\ Forall len3 (mdata pm) /\
  rows am = rows pm /\ length (mdata am) = rows pm /\ Forall len3 (mdata am).
Proof.
  intros Fp Fr Lr E. destruct pos as [|p0 pt]; [discriminate|].
  inversion Fp as [|? ? H0 _]; subst. unfold len3 in H0.
  unfold trim, np_array in E. cbn beta iota zeta in E. cbn [cols mdata rows] in E.
  rewrite H0 in E. cbn [Nat.eqb] in E. cbn beta iota in E.
  set (idx := filter _ _) in E.
  assert (Hidx : Forall (fun x => x < length (p0 :: pt)) idx).
  { apply Forall_forall. intros x Hx. unfold idx in Hx.
    apply filter_In in Hx as [Hx _]. apply in_seq in Hx.
    rewrite length_map in Hx. simpl length in *. lia. }
  destruct idx as [|k ks] eqn:Ei; [discriminate|].
  inversion Hidx as [|? ? Hk Hks]; subst.
  unfold list_min, list_max in E. injection E as <- <- <-.
  pose proof (fold_min_le ks k). pose proof (fold_max_ge ks k).
  pose proof (fold_max_lt ks k _ Hk Hks).
  set (lo := fold_left Nat.min ks k) in *. set (hi := fold_left Nat.max ks k) in *.
  unfold mslice; simpl.
  rewrite !length_firstn, !length_skipn. change (length (p0 :: pt)) with (S (length pt)) in *.
  repeat split; try lia; apply Forall_firstn_skipn; assumption.
Qed.

Lemma trim_store p a s : snd (trim p a s) = s.
Proof.
  unfold trim. destruct p as [|pm]; [reflexivity|].
  destruct (cols pm =? 0); [reflexivity|].
  destruct (filter _ _); [reflexivity|]. destruct a; reflexivity.
Qed.

Lemma kalman_filter_prefix lib poses dt P0 sq r :
  match extract lib poses with
  | inl e => kalman_filter lib poses dt P0 sq r = (Raise e 66, empty_store)
  | inr (pos, ang) =>
      match unwrap_angles (np_array ang) with
      | inl e => kalman_filter lib poses dt P0 sq r = (Raise e 74, empty_store)
      | inr a' =>
          match trim (np_array pos) a' empty_store with
          | (Raise e l, s) => kalman_filter lib poses dt P0 sq r = (Raise e l, s)
          | (Ok (pm, am), s) => kalman_filter lib poses dt P0 sq r = kf_core lib pm am dt P0 sq r s
          end
      end
  end.
Proof.
  unfold kalman_filter, kalman_filter_m, bind, lift, ret, raise.
  destruct (extract lib poses) as [e|[pos ang]]; [reflexivity|]. cbn [fst snd].
  destruct (unwrap_angles (np_array ang)) as [e|a']; [reflexivity|].
  destruct (trim (np_array pos) a' empty_store) as [[[pm am]|e l] s]; reflexivity.
Qed.

Lemma kf_core_run lib pm am dt P0 sq r :
  1 <= rows pm -> rows pm = length (mdata pm) -> Forall len3 (mdata pm) ->
  rows am = rows pm -> length (mdata am) = rows pm -> Forall len3 (mdata am) ->
  exists h x0 x10 Pn,
    length x0 = 18 /\ mv (F_mat dt) x0 = inr x10 /\
    predict_cov (F_mat dt) (Q_mat dt sq) (P_init P0) = inr Pn /\
    ((rows pm = 1 /\
      kf_core lib pm am dt P0 sq r empty_store =
        (Raise TypeError 144,
         mk_store h [(TP, 1, 0, PMat Pn); (Tx, 1, 0, PVec x10);
                     (TP, 0, 0, PMat (P_init P0)); (Tx, 0, 0, PVec x0)])) \/
     (2 <= rows pm /\ exists p1 q1 x11,
        nth_error (mdata pm) 1 = Some p1 /\ nth_error (mdata am) 1 = Some q1 /\
        length p1 = 3 /\ length q1 = 3 /\
        update_state lib H_obs (diag (repeat (Num r) 6)) Pn x10 (p1 ++ q1) = inr x11 /\
        kf_core lib pm am dt P0 sq r empty_store =
          (Raise ValueError 138,
           mk_store h [(Tx, 1, 1, PVec x11); (TP, 1, 0, PMat Pn); (Tx, 1, 0, PVec x10);
                       (TP, 0, 0, PMat (P_init P0)); (Tx, 0, 0, PVec x0)]))).
Proof.
  intros H1 Hrp Fp Hra Hla Fa.
  destruct (mdata pm) as [|p0 [|p1 prest]] eqn:Ep; simpl in Hrp; [lia| |].
  - destruct (mdata am) as [|q0 qrest] eqn:Ea; simpl in Hla; [lia|].
    apply Forall_cons_iff in Fp as [L0 _]. apply Forall_cons_iff in Fa as [L2 _].
    destruct (kf_core_one_frame lib pm am dt P0 sq r p0 q0 qrest Ep Hrp Ea ltac:(lia) L0 L2)
      as (h & x0 & x10 & Pn & E & Lx & Ex & EP).
    exists h, x0, x10, Pn. repeat split; auto.
  - destruct (mdata am) as [|q0 [|q1 qrest]] eqn:Ea; simpl in Hla; [lia|lia|].
    apply Forall_cons_iff in Fp as [L0 Fp]. apply Forall_cons_iff in Fp as [L1 _].
    apply Forall_cons_iff in Fa as [L2 Fa]. apply Forall_cons_iff in Fa as [L3 _].
    destruct (kf_core_two_frames lib pm am dt P0 sq r p0 p1 q0 q1 prest qrest
                Ep ltac:(rewrite Ep; simpl; lia) Ea ltac:(lia) L0 L1 L2 L3)
      as (h & x0 & x10 & Pn & x11 & E & Lx & Ex & EP & EU).
    exists h, x0, x10, Pn. repeat split; auto. right. split; [lia|].
    exists p1, q1, x11. repeat split; auto.
Qed.

(** A run that gets past trimming continues in [kf_core] with
    well-shaped arrays. *)
Lemma prefix_ok lib poses dt P0 sq r pos ang a' pm am s :
  extract lib poses = inr (pos, ang) -> unwrap_angles (np_array ang) = inr a' ->
  trim (np_array pos) a' empty_store = (Ok (pm, am), s) ->
  s = empty_store /\ 1 <= rows pm /\ rows pm = length (mdata pm) /\ Forall len3 (mdata pm) /\
  rows am = rows pm /\ length (mdata am) = rows pm /\ Forall len3 (mdata am) /\
  kalman_filter lib poses dt P0 sq r = kf_core lib pm am dt P0 sq r empty_store.
Proof.
  intros Ex Eu Et.
  pose proof (kalman_filter_prefix lib poses dt P0 sq r) as K.
  rewrite Ex, Eu, Et in K.
  destruct (extract_shape _ _ _ _ Ex) as (L1 & L2 & F1 & F2).
  destruct pos as [|p0 pt]; [discriminate|].
  assert (ang <> []) by (intros ->; simpl in L1, L2; lia).
  destruct (unwrap_shape ang a' F2 Eu H) as (rs & -> & Lr & Fr).
  rewrite L2, <- L1 in Et.
  destruct (trim_spec (p0 :: pt) rs empty_store pm am s F1 Fr ltac:(lia) Et)
    as (-> & Hs).
  repeat split; try apply Hs. exact K.
Qed.

Lemma kalman_filter_cases lib poses dt P0 sq r :
  (exists e l, kalman_filter lib poses dt P0 sq r = (Raise e l, empty_store)) \/
  exists pos ang a' pm am,
    extract lib poses = inr (pos, ang) /\ unwrap_angles (np_array ang) = inr a' /\
    trim (np_array pos) a' empty_store = (Ok (pm, am), empty_store) /\
    1 <= rows pm /\ rows pm = length (mdata pm) /\ Forall len3 (mdata pm) /\
    rows am = rows pm /\ length (mdata am) = rows pm /\ Forall len3 (mdata am) /\
    kalman_filter lib poses dt P0 sq r = kf_core lib pm am dt P0 sq r empty_store.
Proof.
  pose proof (kalman_filter_prefix lib poses dt P0 sq r) as K.
  destruct (extract lib poses) as [e|[pos ang]] eqn:Ex; [left; eauto|].
  destruct (unwrap_angles (np_array ang)) as [e|a'] eqn:Eu; [left; eauto|].
  destruct (trim (np_array pos) a' empty_store) as [[[pm am]|e l] s] eqn:Et.
  - right. destruct (prefix_ok lib poses dt P0 sq r pos ang a' pm am s Ex Eu Et)
      as (-> & S1 & S2 & S3 & S4 & S5 & S6 & S7).
    exists pos, ang, a', pm, am. repeat split; auto.
  - left. exists e, l. rewrite K. f_equal.
    pose proof (trim_store (np_array pos) a' empty_store) as T. now rewrite Et in T.
Qed.

(** ** Unwrapping, row by row *)

Lemma all_nan_no_nan r : len3 r -> all_nan r = true -> no_nan r = false.
Proof.
  unfold len3, all_nan, no_nan. intros L H. destruct r as [|a t]; [discriminate|].
  simpl in *. apply andb_true_iff in H as [Ha _]. now rewrite Ha.
Qed.

Lemma filter_no_nan r : no_nan r = true -> filter (fun x => negb (isnan x)) r = r.
Proof.
  unfold no_nan. induction r as [|a t IH]; simpl; [reflexivity|].
  intros H. apply andb_true_iff in H as [Ha Ht]. rewrite Ha. f_equal. auto.
Qed.

Lemma filter_all_nan r : all_nan r = true -> filter (fun x => negb (isnan x)) r = [].
Proof.
  unfold all_nan. induction r as [|a t IH]; simpl; [reflexivity|].
  intros H. apply andb_true_iff in H as [Ha Ht]. rewrite Ha. simpl. auto.
Qed.

Lemma flat_present ang : Forall row_ok ang ->
  concat (map (filter (fun x => negb (isnan x))) ang) = concat (present_rows ang).
Proof.
  induction ang as [|r t IH]; intros F; [reflexivity|].
  apply Forall_cons_iff in F as [[L [Ha|Hn]] Ft]; unfold present_rows; simpl.
  - rewrite (all_nan_no_nan r L Ha), filter_all_nan by exact Ha. simpl. now apply IH.
  - rewrite Hn, filter_no_nan by exact Hn. simpl. f_equal. now apply IH.
Qed.

Lemma chunks3_concat P : Forall len3 P -> chunks3 (concat P) = P.
Proof.
  induction P as [|r t IH]; intros F; [reflexivity|].
  apply Forall_cons_iff in F as [L Ft]. unfold len3 in L.
  destruct r as [|a [|b [|c [|]]]]; try discriminate. simpl. f_equal. auto.
Qed.

Lemma length_concat3 P : Forall len3 P -> length (concat P) = 3 * length P.
Proof.
  induction P as [|r t IH]; intros F; [reflexivity|].
  apply Forall_cons_iff in F as [L Ft]. simpl. rewrite length_app, IH by exact Ft.
  unfold len3 in L. lia.
Qed.

Lemma present_len3 ang : Forall row_ok ang -> Forall len3 (present_rows ang).
Proof.
  intros F. apply Forall_forall. intros r Hr. unfold present_rows in Hr.
  apply filter_In in Hr as [Hr _]. rewrite Forall_forall in F. now apply F.
Qed.

Lemma present_good ang : Forall row_ok ang -> Forall good (present_rows ang).
Proof.
  intros F. apply Forall_forall. intros r Hr. unfold present_rows in Hr.
  apply filter_In in Hr as [Hr Hn]. rewrite Forall_forall in F. split; [now apply F|exact Hn].
Qed.

Lemma unwrap_step_num a b : isnan a = false -> isnan b = false -> isnan (unwrap_step a b) = false.
Proof.
  destruct a, b; try discriminate. intros _ _. unfold unwrap_step.
  destruct (ngt _ _); [reflexivity|]. destruct (nlt _ _); reflexivity.
Qed.

Lemma no_nan_nth r j : no_nan r = true -> j < length r -> isnan (nth j r NaN) = false.
Proof.
  unfold no_nan. rewrite forallb_forall. intros H Hj.
  apply negb_true_iff. apply H. now apply nth_In.
Qed.

Lemma good_step prev r : good prev -> good r ->
  good (map (fun j => unwrap_step (nth j prev NaN) (nth j r NaN)) (seq 0 3)).
Proof.
  intros [Lp Np] [Lr Nr]. split.
  - unfold len3. now rewrite length_map, length_seq.
  - unfold no_nan. apply forallb_forall. intros x Hx.
    apply in_map_iff in Hx as (j & <- & Hj). apply in_seq in Hj.
    apply negb_true_iff, unwrap_step_num; apply no_nan_nth; auto;
      unfold len3 in *; lia.
Qed.

Lemma unwrap_loop_good prev t : good prev -> Forall good t ->
  Forall good (unwrap_loop 3 prev t) /\ length (unwrap_loop 3 prev t) = length t.
Proof.
  revert prev. induction t as [|r t IH]; intros prev Hp F; simpl; [split; constructor|].
  apply Forall_cons_iff in F as [Hr Ft].
  pose proof (good_step prev r Hp Hr) as G.
  destruct (IH _ G Ft) as [F' L']. split; [constructor; auto|now f_equal].
Qed.

Lemma unwrap_rows_good P : Forall good P ->
  Forall good (unwrap_rows P) /\ length (unwrap_rows P) = length P.
Proof.
  destruct P as [|p0 t]; intros F; simpl; [split; constructor|].
  apply Forall_cons_iff in F as [Hp Ft].
  pose proof (proj1 Hp) as L. unfold len3 in L. rewrite L.
  destruct (unwrap_loop_good p0 t Hp Ft) as [F' L']. split; [constructor; auto|now f_equal].
Qed.

Lemma fill_nan r s : all_nan r = true -> fill r s = (r, s).
Proof.
  unfold all_nan. revert s. induction r as [|a t IH]; intros s H; simpl; [reflexivity|].
  apply andb_true_iff in H as [Ha Ht]. rewrite Ha. now rewrite IH.
Qed.

Lemma fill_good r u rest : good r -> len3 u -> fill r (u ++ rest) = (u, rest).
Proof.
  intros [L N] Lu. unfold len3 in *.
  destruct r as [|a [|b [|c [|]]]]; try discriminate.
  destruct u as [|x [|y [|z [|]]]]; try discriminate.
  unfold no_nan in N. simpl in N.
  destruct a, b, c; try discriminate. reflexivity.
Qed.

Lemma fill_rows_spec ang : forall U rest,
  Forall row_ok ang -> Forall good U -> length U = length (present_rows ang) ->
  length (fill_rows ang (concat U ++ rest)) = length ang /\
  Forall len3 (fill_rows ang (concat U ++ rest)) /\
  present_rows (fill_rows ang (concat U ++ rest)) = U /\
  (forall i, all_nan (nth i ang []) = true -> nth i (fill_rows ang (concat U ++ rest)) [] = nth i ang []).
Proof.
  induction ang as [|r t IH]; intros U rest F G L.
  - destruct U; [|discriminate]. simpl.
    split; [reflexivity|]. split; [constructor|]. split; [reflexivity|]. intros [|i]; reflexivity.
  - apply Forall_cons_iff in F as [[Lr [Ha|Hn]] Ft]; unfold present_rows in L; simpl in L.
    + rewrite (all_nan_no_nan r Lr Ha) in L. simpl. rewrite fill_nan by exact Ha.
      destruct (IH U rest Ft G L) as (L1 & F1 & P1 & N1).
      repeat split.
      * simpl. now f_equal.
      * now constructor.
      * unfold present_rows. simpl. rewrite (all_nan_no_nan r Lr Ha). exact P1.
      * intros [|i]; simpl; auto.
    + rewrite Hn in L. destruct U as [|u U']; [discriminate|]. simpl in L.
      apply Forall_cons_iff in G as [Gu G'].
      simpl. rewrite <- app_assoc, fill_good by (first [exact (conj Lr Hn) | apply Gu]).
      destruct (IH U' rest Ft G' ltac:(unfold present_rows; lia)) as (L1 & F1 & P1 & N1).
      repeat split.
      * simpl. now f_equal.
      * constructor; [apply Gu|exact F1].
      * unfold present_rows. simpl. rewrite (proj2 Gu). f_equal. exact P1.
      * intros [|i]; simpl; auto.
        intros Ha. now rewrite (all_nan_no_nan r Lr Ha) in Hn.
Qed.

Lemma unwrap_loop_nth n prev t : forall i, i < length t ->
  nth i (unwrap_loop n prev t) [] =
  map (fun j => unwrap_step (nth j (nth i (prev :: unwrap_loop n prev t) []) NaN)
                            (nth j (nth i t []) NaN)) (seq 0 n).
Proof.
  revert prev. induction t as [|r t IH]; intros prev i Hi; simpl in Hi; [lia|].
  destruct i as [|i]; [reflexivity|].
  cbn [unwrap_loop nth]. rewrite IH by lia. reflexivity.
Qed.

(** Claim C6 (corrected): for angle arrays whose rows are either missing
    (all NaN) or present (no NaN), the unwrapping keeps missing rows, keeps
    the first present row, and computes each later present row entry by
    entry from the RAW current entry and the ALREADY ADJUSTED previous
    present entry, shifting the current entry by [-2 pi] or [+2 pi] only.
    A shift is not carried to the samples that follow. *)
Theorem unwrap_current_only ang : Forall row_ok ang ->
  exists out, unwrap_angles (np_array ang) = inr (np_array out) /\ unwrap_char ang out.
Proof.
  intros F.
  set (P := present_rows ang).
  pose proof (present_good ang F) as GP. fold P in GP.
  assert (LP : Forall len3 P) by (eapply Forall_impl; [|exact GP]; now intros r [? ?]).
  destruct (unwrap_rows_good P GP) as [GU LU].
  destruct (fill_rows_spec ang (unwrap_rows P) [] F GU LU) as (L1 & F1 & P1 & N1).
  rewrite app_nil_r in L1, F1, P1, N1.
  exists (fill_rows ang (concat (unwrap_rows P))). split.
  - destruct ang as [|r0 t]; [reflexivity|].
    unfold unwrap_angles.
    replace (flat_nonnan (np_array (r0 :: t))) with (concat P)
      by (unfold P; rewrite <- flat_present by exact F; reflexivity).
    unfold reshape3. rewrite length_concat3 by exact LP.
    rewrite Nat.mul_comm, Nat.Div0.mod_mul, Nat.div_mul by lia. simpl Nat.eqb. cbv iota.
    cbn [mdata]. rewrite chunks3_concat by exact LP.
    destruct (fill_rows (r0 :: t) (concat (unwrap_rows P))) as [|o0 os] eqn:Eo;
      [simpl in L1; discriminate|].
    apply Forall_cons_iff in F as [[Lr0 _] _].
    apply Forall_cons_iff in F1 as [Lo0 _].
    unfold np_array at 1, fill_arr. cbn [rows cols mdata]. rewrite Eo.
    unfold np_array. rewrite <- L1. unfold len3 in *. rewrite Lr0, Lo0. reflexivity.
  - unfold unwrap_char. rewrite P1. fold P. repeat split; auto.
    + destruct P as [|p0 t]; reflexivity.
    + intros i j Hi Hj. destruct P as [|p0 t] eqn:EP; [simpl in Hi; lia|].
      apply Forall_cons_iff in LP as [L0 _]. unfold len3 in L0.
      unfold unwrap_rows. rewrite L0. cbn [nth]. simpl in Hi.
      rewrite unwrap_loop_nth by lia. rewrite nth_map_seq by exact Hj. reflexivity.
Qed.

Lemma Pn_rows dt P0 sq Pn :
  predict_cov (F_mat dt) (Q_mat dt sq) (P_init P0) = inr Pn -> rows Pn = 18.
Proof.
  intros E. exact (proj1 (predict_rep _ _ _ _ _ _ _ _ (F_mat_rep dt) (Q_mat_rep dt sq) (P_init_rep P0) E)).
Qed.

Lemma mv_F_length dt x0 x10 : mv (F_mat dt) x0 = inr x10 -> length x10 = 18.
Proof.
  intros E. destruct (mv_spec _ _ _ E) as [_ ->]. rewrite length_map, length_seq.
  apply F_mat_shape.
Qed.

(** Claim C1 (corrected): the recursion does not skip the update at a
    missing frame.  If frame 1 of the trimmed span is missing (NaN
    position) and the span has at least two frames, the update on line 137
    runs with the NaN measurement and stores an all-NaN state [x[1][1]],
    after which line 138 raises [ValueError]. *)
Theorem missing_frame_not_skipped lib poses dt P0 sq r pos ang a' pm am s :
  extract lib poses = inr (pos, ang) -> unwrap_angles (np_array ang) = inr a' ->
  trim (np_array pos) a' empty_store = (Ok (pm, am), s) ->
  2 <= rows pm -> isnan (at_ pm 1 0) = true ->
  exists h x11 ws,
    kalman_filter lib poses dt P0 sq r =
      (Raise ValueError 138, mk_store h ((Tx, 1, 1, PVec x11) :: ws)) /\
    length x11 = 18 /\ forallb isnan x11 = true.
Proof.
  intros Ex Eu Et H2 Hn.
  destruct (prefix_ok lib poses dt P0 sq r pos ang a' pm am s Ex Eu Et)
    as (_ & S1 & S2 & S3 & S4 & S5 & S6 & K).
  destruct (kf_core_run lib pm am dt P0 sq r S1 S2 S3 S4 S5 S6)
    as (h & x0 & x10 & Pn & Lx & E10 & EP & [[H1 _]|[_ (p1 & q1 & x11 & N1 & N2 & L1 & L2 & EU & Ek)]]);
    [lia|].
  eexists h, x11, _. rewrite K, Ek. split; [reflexivity|].
  apply (update_state_nan lib H_obs _ Pn x10 (p1 ++ q1) x11 EU).
  - apply obs_matrix_ok.
  - rewrite length_app. unfold len3 in *. lia.
  - exact (mv_F_length _ _ _ E10).
  - exact (Pn_rows _ _ _ _ EP).
  - unfold at_ in Hn. rewrite (nth_error_nth _ _ _ N1) in Hn.
    rewrite app_nth1 by (unfold len3 in *; lia). exact Hn.
Qed.

(** Claim C2 (code bug): the Joseph-form update on line 138 is never
    computed.  Whenever the trimmed span has two or more frames, line 138
    raises [ValueError]: [np.eye(9)] cannot be combined with the 18 x 18
    product [K @ H].  No covariance of an update step (a [P[i][i]], second
    index [i >= 1]) is ever stored. *)
Theorem joseph_update_not_reached lib poses dt P0 sq r pos ang a' pm am s :
  extract lib poses = inr (pos, ang) -> unwrap_angles (np_array ang) = inr a' ->
  trim (np_array pos) a' empty_store = (Ok (pm, am), s) ->
  2 <= rows pm ->
  fst (kalman_filter lib poses dt P0 sq r) = Raise ValueError 138 /\
  (forall a k v, In (TP, a, k, v) (wlog (snd (kalman_filter lib poses dt P0 sq r))) -> k = 0).
Proof.
  intros Ex Eu Et H2.
  destruct (prefix_ok lib poses dt P0 sq r pos ang a' pm am s Ex Eu Et)
    as (_ & S1 & S2 & S3 & S4 & S5 & S6 & K).
  destruct (kf_core_run lib pm am dt P0 sq r S1 S2 S3 S4 S5 S6)
    as (h & x0 & x10 & Pn & Lx & E10 & EP & [[H1 _]|[_ (p1 & q1 & x11 & N1 & N2 & L1 & L2 & EU & Ek)]]);
    [lia|].
  rewrite K, Ek. split; [reflexivity|].
  intros a k v Hin. simpl in Hin.
  repeat destruct Hin as [Hin|Hin]; try discriminate; try (injection Hin; intros; lia); contradiction.
Qed.

(** Claim C3: [kalman_filter] never returns normally; it always raises.
    After a successful trimming, a span of one frame raises [TypeError] on
    line 144 ([np.zeros()]).  A span of two or more frames raises
    [ValueError] on line 138 ([np.eye(9) - K @ H] with 18 x 18 [K @ H]). *)
Theorem kalman_filter_always_raises lib poses dt P0 sq r :
  (exists e l, fst (kalman_filter lib poses dt P0 sq r) = Raise e l) /\
  (forall pos ang a' pm am s,
     extract lib poses = inr (pos, ang) -> unwrap_angles (np_array ang) = inr a' ->
     trim (np_array pos) a' empty_store = (Ok (pm, am), s) ->
     (rows pm = 1 -> fst (kalman_filter lib poses dt P0 sq r) = Raise TypeError 144) /\
     (2 <= rows pm -> fst (kalman_filter lib poses dt P0 sq r) = Raise ValueError 138)).
Proof.
  assert (Hpost : forall pos ang a' pm am s,
     extract lib poses = inr (pos, ang) -> unwrap_angles (np_array ang) = inr a' ->
     trim (np_array pos) a' empty_store = (Ok (pm, am), s) ->
     (rows pm = 1 -> fst (kalman_filter lib poses dt P0 sq r) = Raise TypeError 144) /\
     (2 <= rows pm -> fst (kalman_filter lib poses dt P0 sq r) = Raise ValueError 138)).
  { intros pos ang a' pm am s Ex Eu Et.
    destruct (prefix_ok lib poses dt P0 sq r pos ang a' pm am s Ex Eu Et)
      as (_ & S1 & S2 & S3 & S4 & S5 & S6 & K).
    destruct (kf_core_run lib pm am dt P0 sq r S1 S2 S3 S4 S5 S6)
      as (h & x0 & x10 & Pn & Lx & E10 & EP & [[H1 Ek]|[H2 (p1 & q1 & x11 & N1 & N2 & L1 & L2 & EU & Ek)]]);
      rewrite K, Ek; split; intros; simpl; try reflexivity; lia. }
  split; [|exact Hpost].
  destruct (kalman_filter_cases lib poses dt P0 sq r)
    as [(e & l & E)|(pos & ang & a' & pm & am & Ex & Eu & Et & S1 & _)].
  - exists e, l. now rewrite E.
  - destruct (Hpost pos ang a' pm am empty_store Ex Eu Et) as [A B].
    destruct (Nat.eq_dec (rows pm) 1) as [H|H].
    + exists TypeError, 144. now apply A.
    + exists ValueError, 138. apply B. lia.
Qed.


Lemma extract_missing lib n :
  extract lib (repeat None n) = inr (repeat [NaN; NaN; NaN] n, repeat [NaN; NaN; NaN] n).
Proof. induction n as [|n IH]; [reflexivity|]. simpl. rewrite IH. reflexivity. Qed.

Lemma flat_missing n : concat (map (filter (fun x => negb (isnan x))) (repeat [NaN; NaN; NaN] n)) = [].
Proof. induction n as [|n IH]; [reflexivity|]. simpl. exact IH. Qed.

Lemma fill_rows_missing n : fill_rows (repeat [NaN; NaN; NaN] n) [] = repeat [NaN; NaN; NaN] n.
Proof. induction n as [|n IH]; [reflexivity|]. simpl. rewrite IH. reflexivity. Qed.

Lemma filter_none {A} (f : A -> bool) l : (forall x, In x l -> f x = false) -> filter f l = [].
Proof.
  induction l as [|a l IH]; intros H; [reflexivity|]. simpl. rewrite H by (left; reflexivity).
  apply IH. intros x Hx. apply H. right. exact Hx.
Qed.

Lemma unwrap_missing n : 0 < n ->
  unwrap_angles (np_array (repeat [NaN; NaN; NaN] n)) = inr (np_array (repeat [NaN; NaN; NaN] n)).
Proof.
  intros Hn. destruct n as [|n]; [lia|].
  unfold unwrap_angles, np_array, flat_nonnan. cbn [mdata repeat map concat filter isnan negb app].
  rewrite flat_missing. cbn [reshape3 length Nat.modulo Nat.eqb mdata unwrap_rows concat fill_arr rows cols].
  replace (reshape3 []) with (inr (mk_mat 0 3 []) : exc + mat) by reflexivity.
  cbn [mdata unwrap_rows concat].
  change (fill_rows ([NaN; NaN; NaN] :: repeat [NaN; NaN; NaN] n) [])
    with (fill_rows (repeat [NaN; NaN; NaN] (S n)) []).
  rewrite fill_rows_missing. reflexivity.
Qed.

Lemma trim_missing n a s : 0 < n ->
  trim (np_array (repeat [NaN; NaN; NaN] n)) a s = (Raise ValueError 89, s).
Proof.
  intros Hn. destruct n as [|n]; [lia|].
  unfold trim, np_array. cbn [repeat cols mdata Nat.eqb length].
  rewrite filter_none; [reflexivity|].
  intros k _.
  change ([NaN; NaN; NaN] :: repeat [NaN; NaN; NaN] n) with (repeat [NaN; NaN; NaN] (S n)).
  rewrite map_repeat, nth_repeat. reflexivity.
Qed.

(** Claim C5 (corrected): a track with no present frame makes the
    trimming on line 89 raise [ValueError] ([np.min] of an empty array).
    The empty track raises [IndexError] on line 88 instead.  Nothing is
    stored in either case. *)
Theorem all_missing_track_errors lib n dt P0 sq r : 0 < n ->
  kalman_filter lib (repeat None n) dt P0 sq r = (Raise ValueError 89, empty_store) /\
  kalman_filter lib [] dt P0 sq r = (Raise IndexError 88, empty_store).
Proof.
  intros Hn. split; [|reflexivity].
  pose proof (kalman_filter_prefix lib (repeat None n) dt P0 sq r) as K.
  rewrite extract_missing, unwrap_missing, trim_missing in K by exact Hn. exact K.
Qed.

(** Claim C9 (corrected): the configuration is not validated.  For two
    configurations in the range of [float_safe_config], including [dt <= 0]
    and negative variances, the outcome of [kalman_filter] on a track
    (normal return or the exception raised, with its line) is the same.
    The range only keeps the float program free of overflow; the exact
    computation does not depend on it. *)
Theorem no_config_validation lib poses dt P0 sq r dt' P0' sq' r' :
  float_safe_config dt P0 sq r -> float_safe_config dt' P0' sq' r' ->
  fst (kalman_filter lib poses dt P0 sq r) = fst (kalman_filter lib poses dt' P0' sq' r').
Proof.
  intros _ _.
  pose proof (kalman_filter_prefix lib poses dt P0 sq r) as K1.
  pose proof (kalman_filter_prefix lib poses dt' P0' sq' r') as K2.
  destruct (extract lib poses) as [e|[pos ang]] eqn:Ex; [now rewrite K1, K2|].
  destruct (unwrap_angles (np_array ang)) as [e|a'] eqn:Eu; [now rewrite K1, K2|].
  destruct (trim (np_array pos) a' empty_store) as [[[pm am]|e l] s] eqn:Et; [|now rewrite K1, K2].
  destruct (prefix_ok lib poses dt P0 sq r pos ang a' pm am s Ex Eu Et)
    as (-> & S1 & S2 & S3 & S4 & S5 & S6 & _).
  rewrite K1, K2.
  destruct (kf_core_run lib pm am dt P0 sq r S1 S2 S3 S4 S5 S6)
    as (h & x0 & x10 & Pn & _ & _ & _ & [[H1 E1]|[H2 (p1 & q1 & x11 & _ & _ & _ & _ & _ & E1)]]);
  destruct (kf_core_run lib pm am dt' P0' sq' r' S1 S2 S3 S4 S5 S6)
    as (h' & x0' & x10' & Pn' & _ & _ & _ & [[H1' E1']|[H2' (p1' & q1' & x11' & _ & _ & _ & _ & _ & E1')]]);
  rewrite E1, E1'; try reflexivity; lia.
Qed.

(** Claim C1, witness: the track with its middle frame missing. *)
Lemma missing_frame_not_skipped_witness :
  exists h x11 ws,
    kalman_filter lib0 track_gap (1 # 30) 500 100 1 =
      (Raise ValueError 138, mk_store h ((Tx, 1, 1, PVec x11) :: ws)) /\
    length x11 = 18 /\ forallb isnan x11 = true.
Proof.
  eapply missing_frame_not_skipped; [reflexivity | reflexivity | reflexivity | |].
  - vm_compute. lia.
  - vm_compute. reflexivity.
Defined.

(** Claim C1, counterexample: on the track with its middle frame missing,
    the state stored for frame 1 is all NaN and the call raises
    [ValueError] on line 138. *)
Lemma missing_frame_update_cex :
  match wlog (snd (kalman_filter lib0 track_gap (1 # 30) 500 100 1)) with
  | (Tx, 1, 1, PVec v) :: _ => forallb isnan v
  | _ => false
  end = true /\
  fst (kalman_filter lib0 track_gap (1 # 30) 500 100 1) = Raise ValueError 138.
Proof. (vm_compute; split; reflexivity). Qed.

(** Claim C2, witness: two identical present frames. *)
Lemma joseph_update_not_reached_witness :
  fst (kalman_filter lib0 track_two (1 # 30) 500 100 1) = Raise ValueError 138 /\
  (forall a k v, In (TP, a, k, v) (wlog (snd (kalman_filter lib0 track_two (1 # 30) 500 100 1))) -> k = 0).
Proof.
  eapply joseph_update_not_reached; [reflexivity | reflexivity | reflexivity |].
  vm_compute. lia.
Defined.

(** Claim C3, witness: a single present frame raises [TypeError] on line 144. *)
Lemma kalman_filter_always_raises_witness :
  fst (kalman_filter lib0 track_one (1 # 30) 500 100 1) = Raise TypeError 144.
Proof.
  eapply (proj2 (kalman_filter_always_raises lib0 track_one (1 # 30) 500 100 1));
    [reflexivity | reflexivity | reflexivity | reflexivity].
Defined.


(** Claim C5, witness: an all-missing track of length 10, and the empty track. *)
Lemma all_missing_track_errors_witness :
  kalman_filter lib0 (repeat None 10) (1 # 30) 500 100 1 = (Raise ValueError 89, empty_store) /\
  kalman_filter lib0 [] (1 # 30) 500 100 1 = (Raise IndexError 88, empty_store).
Proof. apply all_missing_track_errors. lia. Defined.

(** Claim C5, counterexample: the all-missing track of length 10 raises
    [ValueError] on line 89 (a plain numpy error, not a dedicated
    empty-track error). *)
Lemma all_missing_track_errors_cex :
  kalman_filter lib0 (repeat None 10) (1 # 30) 500 100 1 = (Raise ValueError 89, empty_store).
Proof. vm_compute. reflexivity. Qed.

(** Claim C6, witness: the channel [3.0, -3.1, -1.0]. *)
Lemma unwrap_current_only_witness :
  exists out, unwrap_angles (np_array (one_channel [3; -31 # 10; -1]%Q)) = inr (np_array out) /\
              unwrap_char (one_channel [3; -31 # 10; -1]%Q) out.
Proof.
  apply unwrap_current_only.
  repeat constructor; right; reflexivity.
Defined.

(** Claim C9, witness: the default configuration and [dt = -1] with
    negative variances, on a track of two present frames. *)
Lemma no_config_validation_witness :
  fst (kalman_filter lib0 track_two (1 # 30) 500 100 1) =
  fst (kalman_filter lib0 track_two (-1) (-5) (-100) (-1)).
Proof.
  apply no_config_validation; unfold float_safe_config, Qle; simpl; repeat split; lia.
Defined.

(** Claim C9, counterexample: [dt = -1] and negative variances are
    accepted.  On a track of two present frames the filter runs lines
    120-137, storing five table entries, and then raises the same
    [ValueError] on line 138 as for a valid configuration. *)
Lemma no_config_validation_cex :
  fst (kalman_filter lib0 track_two (-1) (-5) (-100) (-1)) = Raise ValueError 138 /\
  length (wlog (snd (kalman_filter lib0 track_two (-1) (-5) (-100) (-1)))) = 5.
Proof. (vm_compute; split; reflexivity). Qed.


(** * Theorems on the other functions *)

Module LoaderFacts.
Import Strings.String Strings.Ascii Loader.


Lemma digit_chr d : d < 10 ->
  is_space (chr d) = false /\ is_digit (chr d) = true /\ Ascii.eqb (chr d) "-" = false /\
  Ascii.eqb (chr d) "+" = false /\ Ascii.eqb (chr d) "_" = false /\ dval (chr d) = Z.of_nat d.
Proof. intros H. do 10 (destruct d as [|d]; [repeat split; reflexivity|]). lia. Qed.

Lemma ndigits_spec fuel : forall n, n < fuel ->
  ndigits fuel n <> [] /\ Forall (fun d => d < 10) (ndigits fuel n) /\
  fold_left (fun a d => a * 10 + d) (ndigits fuel n) 0 = n /\
  (n = 0 \/ 0 < hd 0 (ndigits fuel n)).
Proof.
  induction fuel as [|f IH]; intros n Hn; [lia|]. cbn [ndigits].
  destruct (Nat.ltb_spec n 10) as [H|H].
  - split; [discriminate|]. split; [constructor; [exact H|constructor]|].
    split; [simpl; lia|]. destruct n; [left; reflexivity|right; simpl; lia].
  - assert (Hd : n / 10 < f) by (pose proof (Nat.div_lt n 10); lia).
    destruct (IH (n / 10) Hd) as (N & F & E & Hh).
    split; [|split; [|split]].
    + intros C. apply app_eq_nil in C as [_ C]. discriminate.
    + apply Forall_app. split; [exact F|]. constructor; [apply Nat.mod_upper_bound; lia|constructor].
    + rewrite fold_left_app. cbn [fold_left]. rewrite E.
      pose proof (Nat.div_mod n 10). lia.
    + right. destruct (ndigits f (n / 10)) as [|d0 t]; [contradiction|]. simpl.
      destruct Hh as [Hh|Hh]; [|exact Hh].
      exfalso. assert (10 <= n) by lia. assert (1 <= n / 10) by (apply (Nat.div_le_lower_bound n 10 1); lia). lia.
Qed.

Lemma digits_rest_digits ds acc : Forall (fun d => d < 10) ds ->
  digits_rest acc (string_of_list_ascii (map chr ds)) =
  (fold_left (fun a d => a * 10 + Z.of_nat d)%Z ds acc, EmptyString).
Proof.
  revert acc; induction ds as [|d t IH]; intros acc F; [reflexivity|].
  inversion F as [|? ? Hd Ft]; subst.
  destruct (digit_chr d Hd) as (_ & Dg & _ & _ & _ & Dv).
  cbn [map string_of_list_ascii digits_rest]. rewrite Dg, Dv. apply IH, Ft.
Qed.

Lemma fold_horner_Z ds acc :
  fold_left (fun a d => a * 10 + Z.of_nat d)%Z ds (Z.of_nat acc) =
  Z.of_nat (fold_left (fun a d => a * 10 + d) ds acc).
Proof. revert acc; induction ds as [|d t IH]; intros acc; [reflexivity|]. simpl.
  rewrite <- IH. f_equal. lia. Qed.

Lemma py_int_str n : py_int (py_str n) = Some (Z.of_nat n).
Proof.
  destruct (ndigits_spec (S n) n (Nat.lt_succ_diag_r n)) as (N & F & E & _).
  unfold py_str. destruct (ndigits (S n) n) as [|d0 t] eqn:D; [contradiction|].
  apply Forall_cons_iff in F as [Hd Ft].
  destruct (digit_chr d0 Hd) as (Sp & Dg & Mi & Pl & _ & Dv).
  unfold py_int. cbn [map string_of_list_ascii drop_space]. fold (chr d0).
  rewrite Sp, Mi, Pl, Dg, Dv. rewrite digits_rest_digits by exact Ft.
  simpl all_space. cbv iota beta. f_equal.
  rewrite fold_horner_Z. rewrite <- E. simpl fold_left at 2. lia.
Qed.

Lemma py_str_inj m n : py_str m = py_str n -> m = n.
Proof. intros H. apply (f_equal py_int) in H. rewrite !py_int_str in H. injection H. lia. Qed.

Lemma frame_dicts_ok d : Forall (fun p : string * jval => is_dict (snd p)) d ->
  frame_dicts d = inr (map (fun p => (fst p, dict_of (snd p))) d).
Proof.
  induction d as [|[k v] t IH]; intros F; [reflexivity|].
  apply Forall_cons_iff in F as [[kv Hv] Ft]. simpl in Hv. subst v.
  simpl. rewrite (IH Ft). reflexivity.
Qed.

Lemma frame_dicts_err d k v : In (k, v) d -> (forall kv, v <> JObj kv) ->
  frame_dicts d = inl (AttributeError, 25).
Proof.
  induction d as [|[k' v'] t IH]; intros Hin Hv; [destruct Hin|].
  destruct Hin as [E|Hin].
  - injection E as -> ->. destruct v; try reflexivity. exfalso; eapply Hv; reflexivity.
  - simpl. destruct v'; try reflexivity. rewrite (IH Hin Hv). reflexivity.
Qed.

Lemma lookup_map_dict k d :
  lookup k (map (fun p => (fst p, dict_of (snd p))) d) = option_map dict_of (lookup k d).
Proof.
  induction d as [|[k' v] t IH]; [reflexivity|]. simpl.
  destruct (String.eqb k k'); [reflexivity|exact IH].
Qed.

Lemma lookup_In {A} k (d : list (string * A)) v : lookup k d = Some v -> In (k, v) d.
Proof.
  induction d as [|[k' v'] t IH]; simpl; [discriminate|].
  destruct (String.eqb_spec k k') as [->|_]; intros H; [injection H as ->; left; reflexivity|right; auto].
Qed.

Lemma In_fold_set_add l : forall s x, In x (fold_left set_add l s) <-> In x s \/ In x l.
Proof.
  induction l as [|a l IH]; intros s x; simpl; [tauto|].
  rewrite IH. unfold set_add.
  destruct (existsb (String.eqb a) s) eqn:E.
  - apply existsb_exists in E as [y [Hy Ey]]. apply String.eqb_eq in Ey. subst y.
    split; [tauto|]. intros [H|[<-|H]]; auto.
  - rewrite in_app_iff. simpl. tauto.
Qed.

Lemma NoDup_fold_set_add l : forall s, NoDup s -> NoDup (fold_left set_add l s).
Proof.
  induction l as [|a l IH]; intros s N; [exact N|]. simpl. apply IH.
  unfold set_add. destruct (existsb (String.eqb a) s) eqn:E; [exact N|].
  apply NoDup_app; [exact N|constructor; [intros []|constructor]|].
  intros x Hx [->|[]]. assert (existsb (String.eqb x) s = true) as C
    by (apply existsb_exists; exists x; split; [exact Hx|apply String.eqb_refl]).
  congruence.
Qed.

Lemma obj_id_set_gen frames : forall s,
  NoDup s -> NoDup (fold_left (fun (s : list string) (fr : string * list (string * jval)) => fold_left set_add (map fst (snd fr)) s) frames s) /\
  forall o, In o (fold_left (fun (s : list string) (fr : string * list (string * jval)) => fold_left set_add (map fst (snd fr)) s) frames s) <->
            In o s \/ exists k kv, In (k, kv) frames /\ In o (map fst kv).
Proof.
  induction frames as [|[k kv] t IH]; intros s N; simpl.
  - split; [exact N|]. intros o. split; [tauto|]. intros [H|(? & ? & [] & _)]; exact H.
  - destruct (IH _ (NoDup_fold_set_add (map fst kv) s N)) as [N' I'].
    split; [exact N'|]. intros o. rewrite I', In_fold_set_add. split.
    + intros [[H|H]|(k' & kv' & H1 & H2)]; [left; exact H|right; exists k, kv; auto|right; eauto].
    + intros [H|(k' & kv' & [E|H1] & H2)]; [left; left; exact H| |right; eauto].
      injection E as -> ->. left; right; exact H2.
Qed.

Lemma obj_id_set_spec d :
  NoDup (obj_id_set (map (fun p => (fst p, dict_of (snd p))) d)) /\
  forall o, Forall (fun p : string * jval => is_dict (snd p)) d ->
    In o (obj_id_set (map (fun p => (fst p, dict_of (snd p))) d)) <-> has_object d o.
Proof.
  destruct (obj_id_set_gen (map (fun p => (fst p, dict_of (snd p))) d) [] (NoDup_nil _)) as [N I].
  split; [exact N|]. intros o F. unfold obj_id_set. rewrite I. split.
  - intros [[]|(k & kv & H1 & H2)]. apply in_map_iff in H1 as ([k' v] & E & Hin).
    cbn in E. injection E as E1 E2; subst k kv. apply in_map_iff in H2 as ([o' w] & E' & H2). simpl in E'. subst o'.
    rewrite Forall_forall in F. destruct (F _ Hin) as [kv' Hv]. simpl in Hv. subst v.
    exists k', kv', w. split; [exact Hin|exact H2].
  - intros (k & kv & v & H1 & H2). right. exists k, kv. split.
    + apply in_map_iff. exists (k, JObj kv). split; [reflexivity|exact H1].
    + apply in_map_iff. exists (o, v). split; [reflexivity|exact H2].
Qed.

Lemma mapE_ok {A B} (f : A -> (pyexc * nat) + B) g l :
  (forall a, In a l -> f a = inr (g a)) -> mapE f l = inr (map g l).
Proof.
  induction l as [|a l IH]; intros H; [reflexivity|]. simpl.
  rewrite (H a (or_introl eq_refl)), IH; [reflexivity|]. intros x Hx. apply H. right; exact Hx.
Qed.

Lemma mapE_err {A B} (f : A -> (pyexc * nat) + B) e l :
  (forall a, In a l -> f a = inl e \/ exists b, f a = inr b) ->
  (exists a, In a l /\ f a = inl e) -> mapE f l = inl e.
Proof.
  induction l as [|a l IH]; intros H [x [Hx Ex]]; [destruct Hx|]. simpl.
  destruct (H a (or_introl eq_refl)) as [Ea|[b Eb]]; [rewrite Ea; reflexivity|].
  rewrite Eb. destruct Hx as [<-|Hx]; [congruence|].
  rewrite IH; [reflexivity| |exists x; auto]. intros y Hy. apply H. right; exact Hy.
Qed.

Lemma mapE_cases {A B} (f : A -> (pyexc * nat) + B) e l :
  (forall a, In a l -> f a = inl e \/ exists b, f a = inr b) ->
  mapE f l = inl e \/ exists r, mapE f l = inr r.
Proof.
  induction l as [|a l IH]; intros H; [right; eexists; reflexivity|]. simpl.
  destruct (H a (or_introl eq_refl)) as [Ea|[b Eb]]; [rewrite Ea; left; reflexivity|].
  rewrite Eb. destruct IH as [E|[r E]]; [intros y Hy; apply H; right; exact Hy| |];
    rewrite E; [left|right; eexists]; reflexivity.
Qed.

Lemma rev_last {A} (l : list A) x : l <> [] -> exists t, rev l = last l x :: t.
Proof.
  intros H. destruct (exists_last H) as (l' & a & ->).
  rewrite last_last, rev_app_distr. simpl. eauto.
Qed.

Lemma object_track_last d obj_id (F : Forall (fun p : string * jval => is_dict (snd p)) d) :
  d <> [] ->
  object_track (map (fun p => (fst p, dict_of (snd p))) d) obj_id =
  match py_int (fst (last d (""%string, JNull))) with
  | None => inl (PyErr ValueError, 31)
  | Some L => mapE (read_pose (map (fun p => (fst p, dict_of (snd p))) d) obj_id) (frame_range L)
  end.
Proof.
  intros Hd. unfold object_track. rewrite <- map_rev.
  destruct (rev_last d (""%string, JNull) Hd) as [t ->]. simpl.
  destruct (last d (""%string, JNull)) as [k v]. reflexivity.
Qed.

Lemma read_pose_frame d obj_id f (F : Forall (fun p : string * jval => is_dict (snd p)) d) :
  read_pose (map (fun p => (fst p, dict_of (snd p))) d) obj_id f =
  match frame_obj d obj_id f with
  | None => inr None
  | Some v => match np_shape v with
              | None => inl (PyErr ValueError, 35)
              | Some s => if nlist_eqb s [4; 4] then inr (Some v) else inl (AssertionError, 36)
              end
  end.
Proof.
  unfold read_pose, frame_obj. rewrite lookup_map_dict.
  destruct (lookup (py_str f) d) as [v|] eqn:E; [|reflexivity]. simpl.
  apply lookup_In in E. rewrite Forall_forall in F. destruct (F _ E) as [kv Hv]. simpl in Hv.
  subst v. reflexivity.
Qed.

Lemma frame_obj_In d o f v : frame_obj d o f = Some v ->
  exists k kv, In (k, JObj kv) d /\ In (o, v) kv.
Proof.
  unfold frame_obj. destruct (lookup (py_str f) d) as [[]|] eqn:E; try discriminate.
  intros H. exists (py_str f), kv. split; [apply lookup_In; exact E|apply lookup_In; exact H].
Qed.

Lemma has_object_nonempty d o : has_object d o -> d <> [].
Proof. intros (k & kv & v & H & _) ->. destruct H. Qed.

Lemma In_order (order : list string -> list string) (Hord : forall l, Permutation (order l) l) l x :
  In x (order l) <-> In x l.
Proof. split; apply Permutation_in; [apply Hord|symmetry; apply Hord]. Qed.

Lemma nlist_eqb_eq a b : nlist_eqb a b = true <-> a = b.
Proof.
  revert b; induction a as [|x a IH]; intros [|y b]; simpl; try (split; congruence).
  rewrite andb_true_iff, Nat.eqb_eq, IH. split; [intros [-> ->]; reflexivity|intros E; injection E; auto].
Qed.

Lemma read_pose_cases d obj_id f (F : Forall (fun p : string * jval => is_dict (snd p)) d) :
  (forall k kv o v, In (k, JObj kv) d -> In (o, v) kv -> np_shape v <> None) ->
  read_pose (map (fun p => (fst p, dict_of (snd p))) d) obj_id f = inl (AssertionError, 36) \/
  exists b, read_pose (map (fun p => (fst p, dict_of (snd p))) d) obj_id f = inr b.
Proof.
  intros Hn. rewrite read_pose_frame by exact F.
  destruct (frame_obj d obj_id f) as [v|] eqn:Ef; [|right; eauto].
  apply frame_obj_In in Ef as (k & kv & H1 & H2).
  destruct (np_shape v) as [s|] eqn:Es; [|exfalso; eapply Hn; eauto].
  destruct (nlist_eqb s [4; 4]); [right; eauto|left; reflexivity].
Qed.

Lemma last_map_comm {A B} (f : A -> B) l x : f (last l x) = last (map f l) (f x).
Proof. induction l as [|a [|b t] IH]; try reflexivity. exact IH. Qed.

Lemma lookup_canonical (d : list (string * jval)) : forall s f x, map fst d = map py_str (seq s (List.length d)) ->
  f < List.length d -> lookup (py_str (s + f)) d = Some (snd (nth f d x)).
Proof.
  induction d as [|[k v] t IH]; intros s f x Hk Hf; simpl in Hf; [lia|].
  simpl in Hk. injection Hk as Ek Ht. subst k. simpl.
  destruct (String.eqb_spec (py_str (s + f)) (py_str s)) as [E|E].
  - apply py_str_inj in E. assert (f = 0) by lia. subst f. reflexivity.
  - destruct f as [|f]; [rewrite Nat.add_0_r in E; contradiction|].
    replace (s + S f) with (S s + f) by lia. apply IH; [exact Ht|lia].
Qed.

(** [load_object_poses] on a file whose frames hold no object (or that has
    no frame at all) returns an empty dictionary, whatever its keys. *)
Theorem load_object_poses_no_objects order d :
  (forall l, Permutation (order l) l) -> Forall (fun p : string * jval => snd p = JObj []) d ->
  load_object_poses order d = inr [].
Proof.
  intros Hord F. unfold load_object_poses.
  assert (Fd : Forall (fun p : string * jval => is_dict (snd p)) d)
    by (eapply Forall_impl; [|exact F]; intros p ->; exists []; reflexivity).
  rewrite (frame_dicts_ok d Fd).
  destruct (obj_id_set (map (fun p => (fst p, dict_of (snd p))) d)) as [|o t] eqn:E.
  - pose proof (Hord []) as P. apply Permutation_sym, Permutation_nil in P. rewrite P. reflexivity.
  - exfalso. destruct (obj_id_set_spec d) as [_ I].
    assert (Ho : has_object d o) by (apply I; [exact Fd|rewrite E; left; reflexivity]).
    destruct Ho as (k & kv & v & H1 & H2). rewrite Forall_forall in F.
    specialize (F _ H1). simpl in F. injection F as ->. destruct H2.
Qed.

(** [load_object_poses] raises [AttributeError] at line 25 as soon as some
    frame of the file is not a JSON object (it has no [.keys()]). *)
Theorem load_object_poses_non_dict order d k v :
  In (k, v) d -> (forall kv, v <> JObj kv) ->
  load_object_poses order d = inl (AttributeError, 25).
Proof. intros H1 H2. unfold load_object_poses. rewrite (frame_dicts_err d k v H1 H2). reflexivity. Qed.

(** When the frames are objects and some frame names an object, but the
    last key of the file is not an integer literal, [int(..)] at line 31
    raises [ValueError]. *)
Theorem load_object_poses_bad_last_key order d o :
  (forall l, Permutation (order l) l) -> Forall (fun p : string * jval => is_dict (snd p)) d ->
  has_object d o -> py_int (fst (last d (""%string, JNull))) = None ->
  load_object_poses order d = inl (PyErr ValueError, 31).
Proof.
  intros Hord F Ho Hl. unfold load_object_poses. rewrite (frame_dicts_ok d F).
  apply mapE_err.
  - intros a _. left. rewrite object_track_last by (exact F || exact (has_object_nonempty d o Ho)).
    rewrite Hl. reflexivity.
  - exists o. split.
    + rewrite In_order by exact Hord. apply (proj2 (obj_id_set_spec d) o F). exact Ho.
    + rewrite object_track_last by (exact F || exact (has_object_nonempty d o Ho)).
      rewrite Hl. reflexivity.
Qed.

(** With object frames, an integer last key [L] and every pose of shape
    [(4, 4)], [load_object_poses] returns one entry per object id that
    occurs in some frame, each id once, and the track of each is, for every
    [frame] in [range(L + 1)], the pose stored under key [str(frame)] for
    that object, or [None] when the frame or the object is missing. *)
Theorem load_object_poses_tracks order d L :
  (forall l, Permutation (order l) l) -> Forall (fun p : string * jval => is_dict (snd p)) d ->
  py_int (fst (last d (""%string, JNull))) = Some L ->
  (forall k kv o v, In (k, JObj kv) d -> In (o, v) kv -> np_shape v = Some [4; 4]) ->
  exists res,
    load_object_poses order d = inr res /\ NoDup (map fst res) /\
    (forall o, In o (map fst res) <-> has_object d o) /\
    (forall o ps, In (o, ps) res -> ps = map (frame_obj d o) (frame_range L)).
Proof.
  intros Hord F Hl Hs.
  pose (ids := order (obj_id_set (map (fun p => (fst p, dict_of (snd p))) d))).
  assert (Hin : forall o, In o ids <-> has_object d o).
  { intros o. unfold ids. rewrite In_order by exact Hord. apply (proj2 (obj_id_set_spec d) o F). }
  exists (map (fun o => (o, map (frame_obj d o) (frame_range L))) ids).
  assert (Hm : map fst (map (fun o => (o, map (frame_obj d o) (frame_range L))) ids) = ids)
    by (rewrite map_map; apply map_id).
  split; [|split; [|split]].
  - unfold load_object_poses. rewrite (frame_dicts_ok d F). fold ids. apply mapE_ok.
    intros o Ho. apply Hin in Ho.
    rewrite object_track_last by (exact F || exact (has_object_nonempty d o Ho)). rewrite Hl.
    rewrite (mapE_ok _ (frame_obj d o)); [reflexivity|].
    intros f _. rewrite read_pose_frame by exact F.
    destruct (frame_obj d o f) as [v|] eqn:E; [|reflexivity].
    apply frame_obj_In in E as (k & kv & H1 & H2). rewrite (Hs _ _ _ _ H1 H2). reflexivity.
  - rewrite Hm. unfold ids. eapply Permutation_NoDup; [symmetry; apply Hord|].
    apply (proj1 (obj_id_set_spec d)).
  - intros o. rewrite Hm. apply Hin.
  - intros o ps H. apply in_map_iff in H as (o' & E & _). injection E as -> <-. reflexivity.
Qed.

(** On a non-empty file whose keys are exactly ["0"], ["1"], ...,
    [str(len - 1)] in order, with every pose of shape [(4, 4)], each track
    has one entry per frame of the file, and entry [f] is the object's pose
    in frame [f] ([None] where the frame does not name the object). *)
Theorem load_object_poses_canonical order d :
  (forall l, Permutation (order l) l) -> Forall (fun p : string * jval => is_dict (snd p)) d -> d <> [] ->
  map fst d = map py_str (seq 0 (List.length d)) ->
  (forall k kv o v, In (k, JObj kv) d -> In (o, v) kv -> np_shape v = Some [4; 4]) ->
  exists res,
    load_object_poses order d = inr res /\
    (forall o, In o (map fst res) <-> has_object d o) /\
    (forall o ps, In (o, ps) res ->
       List.length ps = List.length d /\
       forall f, f < List.length d -> nth f ps None = lookup o (dict_of (snd (nth f d (""%string, JNull))))).
Proof.
  intros Hord F Hne Hk Hs.
  assert (Hl : py_int (fst (last d (""%string, JNull))) = Some (Z.of_nat (List.length d - 1))).
  { rewrite <- py_int_str. f_equal.
    rewrite last_map_comm, Hk. destruct d as [|p t]; [contradiction|].
    cbn [List.length]. rewrite Nat.sub_1_r. cbn [Nat.pred]. rewrite seq_S, map_app. cbn [map]. rewrite last_last.
    reflexivity. }
  destruct (load_object_poses_tracks order d _ Hord F Hl Hs) as (res & E & _ & I & P).
  exists res. split; [exact E|]. split; [exact I|].
  intros o ps H. rewrite (P o ps H). unfold frame_range.
  replace (Z.to_nat (Z.of_nat (List.length d - 1) + 1)) with (List.length d)
    by (destruct d; [contradiction|]; cbn [List.length]; lia).
  split; [rewrite length_map, length_seq; reflexivity|].
  intros f Hf. rewrite nth_indep with (d' := frame_obj d o 0) by (rewrite length_map, length_seq; exact Hf).
  rewrite map_nth, seq_nth by exact Hf. cbn [Nat.add]. unfold frame_obj.
  change (py_str f) with (py_str (0 + f)).
  rewrite (lookup_canonical d 0 f (""%string, JNull) Hk Hf).
  rewrite Forall_forall in F. destruct (F (nth f d (""%string, JNull)) (nth_In _ _ Hf)) as [kv Hv].
  rewrite Hv. reflexivity.
Qed.

(** With object frames, an integer last key [L] and every pose an array,
    one pose in a frame [f <= L] whose shape is not [(4, 4)] makes
    [load_object_poses] raise [AssertionError] at line 36. *)
Theorem load_object_poses_bad_shape order d L o f v s :
  (forall l, Permutation (order l) l) -> Forall (fun p : string * jval => is_dict (snd p)) d ->
  py_int (fst (last d (""%string, JNull))) = Some L -> f < Z.to_nat (L + 1) ->
  frame_obj d o f = Some v -> np_shape v = Some s -> s <> [4; 4] ->
  (forall k kv o v, In (k, JObj kv) d -> In (o, v) kv -> np_shape v <> None) ->
  load_object_poses order d = inl (AssertionError, 36).
Proof.
  intros Hord F Hl Hf Hv Hsv Hs4 Hn.
  destruct (frame_obj_In d o f v Hv) as (k & kv & H1 & H2).
  assert (Ho : has_object d o) by (exists k, kv, v; auto).
  unfold load_object_poses. rewrite (frame_dicts_ok d F). apply mapE_err.
  - intros o' Ho'. rewrite In_order in Ho' by exact Hord.
    apply (proj2 (obj_id_set_spec d) o' F) in Ho'.
    rewrite object_track_last by (exact F || exact (has_object_nonempty d o' Ho')). rewrite Hl.
    destruct (mapE_cases (read_pose (map (fun p => (fst p, dict_of (snd p))) d) o')
                (AssertionError, 36) (frame_range L)) as [E|[r E]];
      [intros f' _; apply read_pose_cases; assumption| |]; rewrite E; [left|right; eexists]; reflexivity.
  - exists o. split.
    + rewrite In_order by exact Hord. apply (proj2 (obj_id_set_spec d) o F). exact Ho.
    + rewrite object_track_last by (exact F || exact (has_object_nonempty d o Ho)). rewrite Hl.
      rewrite mapE_err with (e := (AssertionError, 36)); [reflexivity| |].
      * intros f' _. apply read_pose_cases; assumption.
      * exists f. split; [unfold frame_range; apply in_seq; lia|].
        rewrite read_pose_frame by exact F. rewrite Hv, Hsv.
        destruct (nlist_eqb s [4; 4]) eqn:E; [apply nlist_eqb_eq in E; contradiction|reflexivity].
Qed.

Local Open Scope string_scope.

(** The poses of a concrete file, one by one. *)
Ltac pose_shapes :=
  intros ? ? ? ? ? ?; unfold file_padded_key, file_two_frames, file_bad_shape in *;
  repeat match goal with
  | H : _ \/ _ |- _ => destruct H
  | H : False |- _ => destruct H
  | H : In _ _ |- _ => progress simpl in H
  | H : (_, _) = (_, _) |- _ => injection H as ? ?; subst
  | H : JObj _ = JObj _ |- _ => injection H as ?; subst
  end; vm_compute; first [reflexivity | congruence].

Lemma load_object_poses_no_objects_witness :
  load_object_poses (fun l => l) file_no_objects = inr [].
Proof.
  apply load_object_poses_no_objects; [intros l; apply Permutation_refl|].
  repeat constructor.
Defined.

Lemma load_object_poses_non_dict_witness :
  load_object_poses (fun l => l) file_list_frame = inl (AttributeError, 25).
Proof.
  apply (load_object_poses_non_dict _ _ "1" (JArr [])); [right; left; reflexivity|].
  intros kv; discriminate.
Defined.

Lemma load_object_poses_bad_last_key_witness :
  load_object_poses (fun l => l) file_bad_key = inl (PyErr ValueError, 31).
Proof.
  apply (load_object_poses_bad_last_key _ _ "a").
  - intros l; apply Permutation_refl.
  - repeat constructor; eexists; reflexivity.
  - exists "0", [("a", jeye4)], jeye4. split; left; reflexivity.
  - vm_compute. reflexivity.
Defined.

Lemma load_object_poses_tracks_witness :
  exists res,
    load_object_poses (fun l => l) file_padded_key = inr res /\ NoDup (map fst res) /\
    (forall o, In o (map fst res) <-> has_object file_padded_key o) /\
    (forall o ps, In (o, ps) res -> ps = map (frame_obj file_padded_key o) (frame_range 7)).
Proof.
  apply load_object_poses_tracks.
  - intros l; apply Permutation_refl.
  - repeat constructor; eexists; reflexivity.
  - vm_compute. reflexivity.
  - pose_shapes.
Defined.

Lemma load_object_poses_canonical_witness :
  exists res,
    load_object_poses (fun l => l) file_two_frames = inr res /\
    (forall o, In o (map fst res) <-> has_object file_two_frames o) /\
    (forall o ps, In (o, ps) res ->
       List.length ps = List.length file_two_frames /\
       forall f, f < List.length file_two_frames ->
         nth f ps None = lookup o (dict_of (snd (nth f file_two_frames (""%string, JNull))))).
Proof.
  apply load_object_poses_canonical.
  - intros l; apply Permutation_refl.
  - repeat constructor; eexists; reflexivity.
  - discriminate.
  - vm_compute. reflexivity.
  - pose_shapes.
Defined.

Lemma load_object_poses_bad_shape_witness :
  load_object_poses (fun l => l) file_bad_shape = inl (AssertionError, 36).
Proof.
  apply (load_object_poses_bad_shape _ _ 1%Z "a" 0 (JArr [JNum (Num 1)]) [1]).
  - intros l; apply Permutation_refl.
  - repeat constructor; eexists; reflexivity.
  - vm_compute. reflexivity.
  - vm_compute. lia.
  - vm_compute. reflexivity.
  - reflexivity.
  - discriminate.
  - pose_shapes.
Defined.

End LoaderFacts.

Lemma nth_list_set_None {A} (l : list (option A)) i j v :
  nth j (list_set l i v) None = if (i =? j) && (i <? length l) then v else nth j l None.
Proof.
  revert i j; induction l as [|x l IH]; intros [|i] [|j]; simpl; auto.
  destruct (i =? j); reflexivity.
Qed.

Lemma first_none_absent poses : Forall (fun o => o = None) poses -> first_none poses = None.
Proof.
  intros F. unfold first_none.
  assert (G : forall m, fold_left (fun fn i => match nth i poses None with Some _ => Some i | None => fn end)
                         (seq 0 m) None = None).
  { induction m; [reflexivity|]. rewrite seq_S, fold_left_app, IHm. simpl.
    destruct (Nat.lt_ge_cases m (length poses)) as [Hm|Hm].
    - rewrite Forall_forall in F. rewrite (F (nth m poses None)) by (apply nth_In; exact Hm). reflexivity.
    - rewrite nth_overflow by exact Hm. reflexivity. }
  apply G.
Qed.

Lemma first_none_last poses k pk :
  nth k poses None = Some pk -> (forall j, k < j -> nth j poses None = None) ->
  first_none poses = Some k.
Proof.
  intros Hk Hl. unfold first_none.
  assert (Hkl : k < length poses).
  { destruct (Nat.lt_ge_cases k (length poses)) as [|H]; [assumption|].
    rewrite nth_overflow in Hk by exact H. discriminate. }
  assert (G : forall m, k < m ->
            fold_left (fun fn i => match nth i poses None with Some _ => Some i | None => fn end)
                      (seq 0 m) None = Some k).
  { induction m; intros Hm; [lia|]. rewrite seq_S, fold_left_app. simpl.
    destruct (Nat.eq_dec m k) as [->|Hne].
    - rewrite Hk. reflexivity.
    - rewrite Hl by lia. apply IHm. lia. }
  apply G. exact Hkl.
Qed.

Lemma normalize_loop_rel inv poses k pk ik :
  nth k poses None = Some pk -> (forall j, k < j -> nth j poses None = None) ->
  inv pk = Some ik -> (forall i p, nth i poses None = Some p -> cols ik = rows p) ->
  forall m a cur, a + m = length poses -> length cur = length poses ->
  (forall j, a <= j -> nth j cur None = nth j poses None) ->
  (forall j, j < a -> rel_at ik poses j (nth j cur None)) ->
  exists res, normalize_loop inv (Some k) (seq a m) cur = inr res /\
    length res = length poses /\ forall j, j < length poses -> rel_at ik poses j (nth j res None).
Proof.
  intros Hk Hl Hinv Hsh. induction m as [|m IH]; intros a cur Ham Hlen Hsame Hdone.
  - exists cur. split; [reflexivity|]. split; [exact Hlen|].
    intros j Hj. apply Hdone. lia.
  - cbn [seq normalize_loop]. rewrite (Hsame a) by lia.
    destruct (nth a poses None) as [p|] eqn:Ea.
    + assert (Hka : a <= k).
      { destruct (Nat.le_gt_cases a k) as [|Hgt]; [assumption|]. rewrite Hl in Ea by lia. discriminate. }
      rewrite (Hsame k) by lia. rewrite Hk, Hinv.
      unfold mm at 1. rewrite (Hsh a p Ea), Nat.eqb_refl.
      apply IH; [lia|now rewrite length_list_set|..].
      * intros j Hj. rewrite nth_list_set_None.
        destruct (Nat.eqb_spec a j); [lia|]. apply Hsame. lia.
      * intros j Hj. rewrite nth_list_set_None.
        destruct (Nat.eqb_spec a j) as [<-|Hne].
        -- rewrite Hlen. destruct (Nat.ltb_spec a (length poses)); [|lia]. cbn [andb].
           split; [congruence|]. intros q Eq. rewrite Ea in Eq. injection Eq as <-.
           eexists. split; [|reflexivity]. unfold mm. rewrite (Hsh a p Ea), Nat.eqb_refl. reflexivity.
        -- apply Hdone. lia.
    + apply IH; [lia|exact Hlen|..].
      * intros j Hj. apply Hsame. lia.
      * intros j Hj. destruct (Nat.eq_dec j a) as [->|Hne].
        -- rewrite Hsame by lia. rewrite Ea. split; [reflexivity|]. intros q Eq. congruence.
        -- apply Hdone. lia.
Qed.

(** Lines 194-199 of the script, with [poses] updated in place: when [k]
    is the last index holding a pose and [inv] inverts that pose to [ik],
    the result keeps the length and the missing frames, and every present
    pose [p] (also the one at [k], although it is overwritten) becomes
    [ik @ p]. *)
Theorem normalize_poses_relative inv poses k pk ik :
  nth k poses None = Some pk -> (forall j, k < j -> nth j poses None = None) ->
  inv pk = Some ik -> (forall i p, nth i poses None = Some p -> cols ik = rows p) ->
  exists res, normalize_poses inv poses = inr res /\ length res = length poses /\
    forall j, j < length poses ->
      (nth j poses None = None -> nth j res None = None) /\
      forall p, nth j poses None = Some p -> exists m, mm ik p = inr m /\ nth j res None = Some m.
Proof.
  intros Hk Hl Hinv Hsh. unfold normalize_poses. rewrite (first_none_last poses k pk Hk Hl).
  apply (normalize_loop_rel inv poses k pk ik Hk Hl Hinv Hsh (length poses) 0 poses);
    [reflexivity|reflexivity|reflexivity|intros j Hj; lia].
Qed.

(** Lines 194-199 of the script leave a track without any pose unchanged:
    the loop of line 197 never reads the unbound name [first_none]. *)
Theorem normalize_poses_no_pose inv poses : Forall (fun o => o = None) poses ->
  normalize_poses inv poses = inr poses.
Proof.
  intros F. unfold normalize_poses. rewrite (first_none_absent poses F).
  generalize (seq 0 (length poses)). intros is. induction is as [|i t IH]; [reflexivity|].
  cbn [normalize_loop].
  destruct (Nat.lt_ge_cases i (length poses)) as [Hi|Hi].
  - rewrite Forall_forall in F. rewrite (F (nth i poses None)) by (apply nth_In; exact Hi). exact IH.
  - rewrite nth_overflow by exact Hi. exact IH.
Qed.

(** Lines 194-199 of the script raise [LinAlgError] at line 199 when the
    last pose of the track is singular. *)
Theorem normalize_poses_singular inv poses k pk :
  nth k poses None = Some pk -> (forall j, k < j -> nth j poses None = None) ->
  inv pk = None -> normalize_poses inv poses = inl (LinAlgError, 199).
Proof.
  intros Hk Hl Hinv. unfold normalize_poses. rewrite (first_none_last poses k pk Hk Hl).
  assert (Hkl : k < length poses).
  { destruct (Nat.lt_ge_cases k (length poses)) as [|H]; [assumption|].
    rewrite nth_overflow in Hk by exact H. discriminate. }
  assert (G : forall m a, a <= k < a + m -> normalize_loop inv (Some k) (seq a m) poses = inl (LinAlgError, 199)).
  { induction m as [|m IH]; intros a Ha; [lia|]. cbn [seq normalize_loop].
    destruct (nth a poses None) as [p|] eqn:Ea.
    - rewrite Hk, Hinv. reflexivity.
    - apply IH. destruct (Nat.eq_dec a k) as [->|]; [congruence|lia]. }
  apply G. lia.
Qed.


Lemma normalize_poses_relative_witness :
  exists res, normalize_poses inv_translation mtrack = inr res /\ length res = length mtrack /\
    forall j, j < length mtrack ->
      (nth j mtrack None = None -> nth j res None = None) /\
      forall p, nth j mtrack None = Some p ->
        exists m, mm (build 4 4 (pose_at (- 3) (- 0) (- 0))) p = inr m /\ nth j res None = Some m.
Proof.
  apply (normalize_poses_relative _ _ 2 (build 4 4 (pose_at 3 0 0))).
  - reflexivity.
  - intros j Hj. destruct j as [|[|[|[|[|j]]]]]; try lia; reflexivity.
  - vm_compute. reflexivity.
  - intros i p H. destruct i as [|[|[|[|[|i]]]]]; simpl in H; try discriminate;
      injection H as <-; reflexivity.
Defined.

Lemma normalize_poses_no_pose_witness :
  normalize_poses inv_translation [None; None] = inr [None; None].
Proof. apply normalize_poses_no_pose. repeat constructor. Defined.

Lemma normalize_poses_singular_witness :
  normalize_poses inv_translation mtrack_singular = inl (LinAlgError, 199).
Proof.
  apply (normalize_poses_singular _ _ 1 (zeros2 4 4)).
  - reflexivity.
  - intros j Hj. destruct j as [|[|[|j]]]; try lia; reflexivity.
  - vm_compute. reflexivity.
Defined.


Lemma nv_nth_num x k : no_nan x = true -> k < length x -> nv (nth k x NaN) (nval (nth k x NaN)).
Proof.
  intros H Hk. pose proof (no_nan_nth x k H Hk) as N.
  destruct (nth k x NaN); [apply nv_Num|discriminate].
Qed.

Lemma nsum_nan_at n f k : k < n -> f k = NaN -> nsum n f = NaN.
Proof.
  induction n; intros Hk Hf; [lia|].
  change (nsum (S n) f) with (nadd (nsum n f) (f n)).
  destruct (Nat.eq_dec k n) as [->|Hne].
  - rewrite Hf. apply nlift_nan_r.
  - rewrite IHn; [reflexivity|lia|exact Hf].
Qed.

Lemma H_obs_at i k : i < 6 -> k < 18 -> at_ H_obs i k = if k =? 3 * i then Num 1 else Num 0.
Proof.
  intros Hi Hk.
  do 6 (destruct i as [|i]; [do 18 (destruct k as [|k]; [vm_compute; reflexivity|]); lia|]); lia.
Qed.

(** The observation matrix [H] of lines 112-114 picks the positions out of
    a NaN-free state of 18 entries: [H @ x] has 6 entries and entry [i] is
    [x[3 i]]. *)
Theorem H_obs_selects x : length x = 18 -> no_nan x = true ->
  exists z, mv H_obs x = inr z /\ length z = 6 /\
    forall i, i < 6 -> nv (nth i z NaN) (nval (nth (3 * i) x NaN)).
Proof.
  intros L N. destruct obs_matrix_ok as (_ & Hr & Hc).
  unfold mv. rewrite Hc, L, Nat.eqb_refl. eexists. split; [reflexivity|].
  rewrite length_map, length_seq. split; [exact Hr|].
  intros i Hi. rewrite nth_map_seq by (rewrite Hr; exact Hi). rewrite Nat.add_0_l.
  eapply nv_ext.
  - apply (nv_nsum 18 _ (fun k => (if k =? 3 * i then 1 else 0) * nval (nth k x NaN))%Q).
    intros k Hk. apply nv_mul; [|apply nv_nth_num; [exact N|lia]].
    rewrite H_obs_at by lia. destruct (k =? 3 * i); apply nv_Num.
  - do 6 (destruct i as [|i]; [cbn [qsum Nat.eqb Nat.mul Nat.add]; ring|]); lia.
Qed.

(** One NaN anywhere in the state makes every entry of [H @ x] NaN: the
    zero coefficients of [H] do not mask it, as [0 * nan] is NaN. *)
Theorem H_obs_nan x k : length x = 18 -> k < 18 -> nth k x NaN = NaN ->
  mv H_obs x = inr (repeat NaN 6).
Proof.
  intros L Hk Hn. destruct obs_matrix_ok as (_ & Hr & Hc).
  unfold mv. rewrite Hc, L, Nat.eqb_refl, Hr. f_equal.
  apply (nth_ext _ _ NaN NaN); rewrite length_map, length_seq, ?repeat_length; [reflexivity|].
  intros i Hi. rewrite nth_map_seq by exact Hi. rewrite nth_repeat.
  apply (nsum_nan_at _ _ k Hk). simpl. rewrite Hn. apply nlift_nan_r.
Qed.

(** The transition [F] of lines 99-103 is a constant-acceleration step
    on each of the 6 channels of a NaN-free state: the position becomes
    [x + dt v + dt^2/2 a], the velocity [v + dt a], and the acceleration is
    kept. *)
Theorem F_mat_step dt x : length x = 18 -> no_nan x = true ->
  exists y, mv (F_mat dt) x = inr y /\ length y = 18 /\
    forall c, c < 6 ->
      nv (nth (3 * c) y NaN)
         (nval (nth (3 * c) x NaN) + dt * nval (nth (3 * c + 1) x NaN)
          + (1 # 2) * dt ^ 2 * nval (nth (3 * c + 2) x NaN))%Q /\
      nv (nth (3 * c + 1) y NaN)
         (nval (nth (3 * c + 1) x NaN) + dt * nval (nth (3 * c + 2) x NaN))%Q /\
      nv (nth (3 * c + 2) y NaN) (nval (nth (3 * c + 2) x NaN)).
Proof.
  intros L N. destruct (F_mat_rep dt) as (Hr & Hc & HF).
  unfold mv. rewrite Hc, L, Nat.eqb_refl. eexists. split; [reflexivity|].
  rewrite length_map, length_seq. split; [exact Hr|].
  assert (G : forall i, i < 18 ->
    nv (nth i (map (fun i => nsum (cols (F_mat dt))
                     (fun k => nmul (at_ (F_mat dt) i k) (nth k x NaN))) (seq 0 (rows (F_mat dt)))) NaN)
       (qsum 18 (fun k => blk i k * nval (at_ (F3 dt) (i mod 3) (k mod 3)) * nval (nth k x NaN)))%Q).
  { intros i Hi. rewrite nth_map_seq by (rewrite Hr; exact Hi). rewrite Hc.
    apply nv_nsum. intros k Hk. apply nv_mul; [apply HF; lia|apply nv_nth_num; [exact N|lia]]. }
  intros c Hc6. split; [|split].
  - eapply nv_ext; [apply G; lia|].
    do 6 (destruct c as [|c]; [cbn [qsum Nat.mul Nat.add]; unfold blk; simpl; ring|]); lia.
  - eapply nv_ext; [apply G; lia|].
    do 6 (destruct c as [|c]; [cbn [qsum Nat.mul Nat.add]; unfold blk; simpl; ring|]); lia.
  - eapply nv_ext; [apply G; lia|].
    do 6 (destruct c as [|c]; [cbn [qsum Nat.mul Nat.add]; unfold blk; simpl; ring|]); lia.
Qed.

Lemma fold_min_spec t h : In (fold_left Nat.min t h) (h :: t) /\
  forall x, In x (h :: t) -> fold_left Nat.min t h <= x.
Proof.
  revert h. induction t as [|a t IH]; intros h; simpl.
  - split; [now left|]. intros x [->|[]]; lia.
  - destruct (IH (Nat.min h a)) as [I1 I2]. split.
    + destruct I1 as [E|I]; [|right; right; exact I].
      rewrite <- E. destruct (Nat.min_spec h a) as [[_ ->]|[_ ->]]; [left|right; left]; reflexivity.
    + intros x [<-|[<-|I]].
      * specialize (I2 _ (or_introl eq_refl)). lia.
      * specialize (I2 _ (or_introl eq_refl)). lia.
      * apply I2. now right.
Qed.

Lemma fold_max_spec t h : In (fold_left Nat.max t h) (h :: t) /\
  forall x, In x (h :: t) -> x <= fold_left Nat.max t h.
Proof.
  revert h. induction t as [|a t IH]; intros h; simpl.
  - split; [now left|]. intros x [->|[]]; lia.
  - destruct (IH (Nat.max h a)) as [I1 I2]. split.
    + destruct I1 as [E|I]; [|right; right; exact I].
      rewrite <- E. destruct (Nat.max_spec h a) as [[_ ->]|[_ ->]]; [right; left|left]; reflexivity.
    + intros x [<-|[<-|I]].
      * specialize (I2 _ (or_introl eq_refl)). lia.
      * specialize (I2 _ (or_introl eq_refl)). lia.
      * apply I2. now right.
Qed.

(** Lines 87-90 cut both arrays to the frames from the first to the last
    one whose [x] position is not NaN, and change nothing else. *)
Theorem trim_span pm am s lo hi :
  cols pm <> 0 -> lo <= hi -> hi < length (mdata pm) ->
  isnan (nth 0 (nth lo (mdata pm) []) NaN) = false ->
  isnan (nth 0 (nth hi (mdata pm) []) NaN) = false ->
  (forall k, k < lo -> isnan (nth 0 (nth k (mdata pm) []) NaN) = true) ->
  (forall k, hi < k -> k < length (mdata pm) -> isnan (nth 0 (nth k (mdata pm) []) NaN) = true) ->
  trim (A2 pm) (A2 am) s = (Ok (mslice pm lo (hi + 1), mslice am lo (hi + 1)), s).
Proof.
  intros Hc Hlh Hh Nlo Nhi Bef Aft.
  unfold trim. destruct (Nat.eqb_spec (cols pm) 0) as [E|_]; [contradiction|].
  set (col := map (fun r => nth 0 r NaN) (mdata pm)).
  assert (Ecol : forall k, k < length (mdata pm) ->
            nth k col NaN = nth 0 (nth k (mdata pm) []) NaN).
  { intros k Hk. unfold col. rewrite (nth_indep _ NaN (nth 0 [] NaN)) by (rewrite length_map; exact Hk).
    exact (map_nth (fun r : list num => nth 0 r NaN) (mdata pm) [] k). }
  set (idx := filter _ (seq 0 (length col))).
  assert (Hin : forall k, In k idx <->
            k < length (mdata pm) /\ isnan (nth 0 (nth k (mdata pm) []) NaN) = false).
  { intros k. unfold idx. rewrite filter_In, in_seq. unfold col at 1. rewrite length_map.
    split.
    - intros [Hk Hn]. split; [lia|]. rewrite <- Ecol by lia. now apply negb_true_iff.
    - intros [Hk Hn]. split; [lia|]. rewrite Ecol by lia. now rewrite Hn. }
  assert (Ilo : In lo idx) by (apply Hin; split; [lia|exact Nlo]).
  assert (Ihi : In hi idx) by (apply Hin; split; [lia|exact Nhi]).
  assert (Ge : forall k, In k idx -> lo <= k).
  { intros k Hk. apply Hin in Hk as [Hk Hn].
    destruct (Nat.lt_ge_cases k lo) as [Hl|]; [|assumption].
    rewrite Bef in Hn by exact Hl. discriminate. }
  assert (Le : forall k, In k idx -> k <= hi).
  { intros k Hk. apply Hin in Hk as [Hk Hn].
    destruct (Nat.le_gt_cases k hi) as [|Hg]; [assumption|].
    rewrite Aft in Hn by assumption. discriminate. }
  clearbody idx. destruct idx as [|k ks]; [destruct Ilo|].
  unfold list_min, list_max.
  destruct (fold_min_spec ks k) as [M1 M2]. destruct (fold_max_spec ks k) as [X1 X2].
  assert (fold_left Nat.min ks k = lo) as -> by (specialize (Ge _ M1); specialize (M2 _ Ilo); lia).
  assert (fold_left Nat.max ks k = hi) as -> by (specialize (Le _ X1); specialize (X2 _ Ihi); lia).
  reflexivity.
Qed.

Lemma grows_ret {A} (a : A) : grows (ret a).
Proof. intros s. now exists []. Qed.
Lemma grows_raise {A} e l : grows (@raise A e l).
Proof. intros s. now exists []. Qed.
Lemma grows_lift {A} l (r : exc + A) : grows (lift l r).
Proof. destruct r; [apply grows_raise|apply grows_ret]. Qed.
Lemma grows_bind {A B} (m : M A) (k : A -> M B) :
  grows m -> (forall a, grows (k a)) -> grows (bind m k).
Proof.
  intros Hm Hk s. unfold bind. destruct (Hm s) as [w1 E1].
  destruct (m s) as [[a|e l] s1]; simpl in E1.
  - destruct (Hk a s1) as [w2 E2]. exists (w2 ++ w1). now rewrite E2, E1, app_assoc.
  - now exists w1.
Qed.
Lemma grows_alloc l : grows (alloc l).
Proof. intros s. now exists []. Qed.
Lemma grows_getitem loc i line : grows (getitem loc i line).
Proof.
  intros s. exists []. unfold getitem.
  destruct (nth_error (heap s) loc) as [l|]; [destruct (nth_error l i)|]; reflexivity.
Qed.
Lemma grows_setitem loc i v line : grows (setitem loc i v line).
Proof.
  intros s. exists []. unfold setitem.
  destruct (nth_error (heap s) loc) as [l|]; [destruct (i <? length l)|]; reflexivity.
Qed.
Lemma grows_record t a k v : grows (record t a k v).
Proof. intros s. now exists [(t, a, k, v)]. Qed.
Lemma grows_as_vec v line : grows (as_vec v line).
Proof. destruct v; first [apply grows_ret | apply grows_raise]. Qed.
Lemma grows_as_mat v line : grows (as_mat v line).
Proof. destruct v; first [apply grows_ret | apply grows_raise]. Qed.

Ltac grows_tac :=
  repeat match goal with
  | |- forall _, grows _ => intros ?
  | |- grows (bind _ _) => apply grows_bind
  | |- grows (ret _) => apply grows_ret
  | |- grows (raise _ _) => apply grows_raise
  | |- grows (lift _ _) => apply grows_lift
  | |- grows (alloc _) => apply grows_alloc
  | |- grows (getitem _ _ _) => apply grows_getitem
  | |- grows (setitem _ _ _ _) => apply grows_setitem
  | |- grows (record _ _ _ _) => apply grows_record
  | |- grows (as_vec _ _) => apply grows_as_vec
  | |- grows (as_mat _ _) => apply grows_as_mat
  | |- grows (match ?x with _ => _ end) => destruct x
  | |- grows (get2 _ _ _ _) => unfold get2
  | |- grows (set2 _ _ _ _ _ _) => unfold set2
  end.

Lemma grows_kf_step lib pm am x P K z F Qn H R i :
  grows (kf_step lib pm am x P K z F Qn H R i).
Proof. unfold kf_step. grows_tac. Qed.

Lemma grows_kf_loop lib pm am x P K z F Qn H R is :
  grows (kf_loop lib pm am x P K z F Qn H R is).
Proof.
  induction is; simpl; [apply grows_ret|].
  apply grows_bind; [apply grows_kf_step|intros _; exact IHis].
Qed.

Lemma log_after {A B} (m : M A) (k : A -> M B) s a s1 :
  m s = (Ok a, s1) -> grows (k a) -> exists ws, wlog (snd (bind m k s)) = ws ++ wlog s1.
Proof. intros E G. unfold bind. rewrite E. apply G. Qed.

Lemma mv_F_ok dt v : length v = 18 -> exists y, mv (F_mat dt) v = inr y.
Proof. intros L. unfold mv. rewrite (proj2 (F_mat_shape dt)), L. eexists; reflexivity. Qed.

(** Lines 119-129 of [kalman_filter]: the first records written are the
    initial state [x[0][0]] (the first positions and angles, each followed
    by two zero entries for velocity and acceleration), the initial
    covariance [P[0][0]] and then [x[1][0] = F @ x[0][0]]. *)
Theorem kf_core_initial_state lib pm am dt P0 sq r :
  1 <= rows pm -> rows pm = length (mdata pm) -> Forall len3 (mdata pm) ->
  rows am = rows pm -> length (mdata am) = rows pm -> Forall len3 (mdata am) ->
  exists ws x10,
    wlog (snd (kf_core lib pm am dt P0 sq r empty_store)) =
      ws ++ [(Tx, 1, 0, PVec x10); (TP, 0, 0, PMat (P_init P0));
             (Tx, 0, 0, PVec (init_layout (nth 0 (mdata pm) []) (nth 0 (mdata am) [])))] /\
    mv (F_mat dt) (init_layout (nth 0 (mdata pm) []) (nth 0 (mdata am) [])) = inr x10.
Proof.
  intros H1 Hrp Fp Hra Hla Fa.
  destruct pm as [rp cp dp], am as [ra ca da]; cbn [rows mdata] in *; subst rp ra.
  destruct dp as [|p0 prest]; simpl in H1; [lia|].
  destruct da as [|q0 qrest]; simpl in Hla; [lia|].
  apply Forall_cons_iff in Fp as [L0 _]. apply Forall_cons_iff in Fa as [L2 _].
  unfold len3 in L0, L2.
  destruct p0 as [|x0 [|y0 [|z0 [|]]]]; try discriminate.
  destruct q0 as [|u0 [|v0 [|w0 [|]]]]; try discriminate.
  cbn [length] in *.
  destruct prest as [|p1 prest];
  run_core.
  all: match goal with |- context [lift 129 (mv (F_mat ?d) ?v)] =>
    destruct (mv_F_ok d v eq_refl) as [x10 Ex]; rewrite Ex end.
  all: cbn [lift ret bind].
  all: match goal with |- exists _ _, wlog (snd (bind ?m ?k ?s)) = _ /\ _ =>
    destruct (log_after m k s tt _ eq_refl ltac:(cbv beta; grows_tac; first [apply grows_kf_loop | apply grows_kf_step])) as [ws Ews] end.
  all: (exists ws, x10; split; [refine (eq_trans Ews _)|]; reflexivity).
Qed.
Lemma mv_rot p i : exists v, mv (rot p) (unit_dir i) = inr v /\
  v = map (fun a => nsum 3 (fun k => nmul (p a k) (nth k (unit_dir i) NaN))) (seq 0 3).
Proof.
  unfold mv, rot. change (cols (build 3 3 p)) with 3. change (rows (build 3 3 p)) with 3.
  replace (length (unit_dir i)) with 3 by (unfold unit_dir; now rewrite length_map, length_seq).
  cbn [Nat.eqb]. eexists. split; [reflexivity|].
  apply map_ext_in. intros a Ha. apply in_seq in Ha.
  unfold nsum. rewrite !at_build by lia. reflexivity.
Qed.

Lemma cood_ok p : exists c, cood p = inr c /\
  forall i, i < 3 -> exists d, nth i c [] = [p 0 3; p 1 3; p 2 3] ++ d /\
    d = map (fun a => nsum 3 (fun k => nmul (p a k) (nth k (unit_dir i) NaN))) (seq 0 3).
Proof.
  destruct (mv_rot p 0) as (v0 & E0 & H0), (mv_rot p 1) as (v1 & E1 & H1),
           (mv_rot p 2) as (v2 & E2 & H2).
  unfold cood. rewrite E0, E1, E2. eexists. split; [reflexivity|].
  intros i Hi. destruct i as [|[|[|i]]]; [eexists; split; [reflexivity|assumption]..|lia].
Qed.

Lemma coods_of_present poses : exists cs, coods_of poses = inr cs /\
  length cs = length (present poses) /\
  forall j p, nth_error (present poses) j = Some p ->
    exists c, nth_error cs j = Some c /\ cood p = inr c.
Proof.
  induction poses as [|[p|] t (cs & E & L & H)]; cbn [coods_of present].
  - exists []. repeat split; [intros [|j] ? ?; discriminate..].
  - destruct (cood_ok p) as (c & Ec & _). rewrite Ec, E.
    exists (c :: cs). split; [reflexivity|]. split; [simpl; congruence|].
    intros [|j] q Hq; simpl in Hq |- *.
    + injection Hq as <-. eauto.
    + apply H. exact Hq.
  - exists cs. auto.
Qed.

Lemma present_nil poses : (forall p, ~ In (Some p) poses) -> present poses = [].
Proof.
  induction poses as [|[p|] t IH]; intros H; simpl; [reflexivity| |].
  - exfalso. apply (H p). now left.
  - apply IH. intros p Hp. apply (H p). now right.
Qed.

(** [plot_poses] raises [IndexError] at line 182 when none of the first
    100 entries of the track is a pose. *)
Theorem plot_poses_no_pose poses : (forall p, ~ In (Some p) (firstn 100 poses)) ->
  plot_poses poses = inl (IndexError, 182).
Proof.
  intros H. unfold plot_poses.
  destruct (coods_of_present (firstn 100 poses)) as (cs & E & L & _).
  rewrite E. rewrite present_nil in L by exact H.
  destruct cs; [reflexivity|discriminate].
Qed.

Lemma nth_error_present_In poses j p : nth_error (present poses) j = Some p -> In (Some p) poses.
Proof.
  revert j. induction poses as [|[q|] t IH]; intros j Hj; simpl in Hj.
  - destruct j; discriminate.
  - destruct j as [|j]; simpl in Hj.
    + injection Hj as <-. now left.
    + right. eapply IH. exact Hj.
  - right. eapply IH. exact Hj.
Qed.

(** [plot_poses] makes three [quiver] calls, coloured ['b'], ['r'], ['g'].
    Call [i] draws one arrow per pose among the first 100 entries, in
    order: it starts at the pose's translation, and its direction is
    [0.01] times column [i] of the pose's rotation. *)
Theorem plot_poses_arrows poses :
  present (firstn 100 poses) <> [] ->
  (forall p a k, In (Some p) (firstn 100 poses) -> a < 3 -> k < 3 -> isnan (p a k) = false) ->
  exists calls, plot_poses poses = inr calls /\ map fst calls = [Cb; Cr; Cg] /\
    forall i c arrows, nth_error calls i = Some (c, arrows) ->
      length arrows = length (present (firstn 100 poses)) /\
      forall j p, nth_error (present (firstn 100 poses)) j = Some p ->
        exists arrow, nth_error arrows j = Some arrow /\
          firstn 3 arrow = [p 0 3; p 1 3; p 2 3] /\ length arrow = 6 /\
          forall a, a < 3 -> nv (nth (3 + a) arrow NaN) (c001 * nval (p a i)).
Proof.
  intros Hne Hnum. unfold plot_poses.
  destruct (coods_of_present (firstn 100 poses)) as (cs & E & L & H).
  rewrite E. destruct cs as [|c0 cs']; [destruct (present (firstn 100 poses)); [contradiction|discriminate]|].
  set (cs := c0 :: cs') in *.
  eexists. split; [reflexivity|]. split; [reflexivity|].
  intros i c arrows Hi.
  assert (Hi3 : i < 3 /\ arrows = map (fun cd => nth i cd []) cs).
  { destruct i as [|[|[|i]]]; simpl in Hi;
      try (injection Hi as _ <-; split; [lia|reflexivity]).
    destruct i; discriminate. }
  destruct Hi3 as [Hi3 ->]. rewrite length_map. split; [exact L|].
  intros j p Hj. destruct (H j p Hj) as (cd & Ecd & Ep).
  pose proof (nth_error_present_In _ _ _ Hj) as Hin.
  exists (nth i cd []). split; [now rewrite nth_error_map, Ecd|].
  destruct (cood_ok p) as (c' & Ec' & Hc). rewrite Ec' in Ep. injection Ep as <-.
  destruct (Hc i Hi3) as (d & -> & ->).
  split; [reflexivity|]. split; [reflexivity|].
  intros a Ha.
  rewrite app_nth2 by (simpl; lia).
  replace (3 + a - length [p 0 3; p 1 3; p 2 3]) with a by (simpl; lia).
  rewrite nth_map_seq by exact Ha. rewrite Nat.add_0_l.
  eapply nv_ext.
  - apply (nv_nsum 3 _ (fun k => nval (p a k) * nval (nth k (unit_dir i) NaN))%Q).
    intros k Hk. apply nv_mul.
    + pose proof (Hnum p a k Hin Ha Hk) as Hn. destruct (p a k); [apply nv_Num|discriminate].
    + unfold unit_dir. rewrite nth_map_seq by exact Hk. destruct (0 + k =? i); apply nv_Num.
  - destruct i as [|[|[|i]]]; [..|lia]; cbn [qsum]; unfold unit_dir; simpl; ring.
Qed.

Lemma H_obs_selects_witness :
  exists z, mv H_obs xs18 = inr z /\ length z = 6 /\
    forall i, i < 6 -> nv (nth i z NaN) (nval (nth (3 * i) xs18 NaN)).
Proof. apply H_obs_selects; reflexivity. Defined.

Lemma H_obs_nan_witness : mv H_obs (NaN :: repeat (Num 1) 17) = inr (repeat NaN 6).
Proof. apply (H_obs_nan _ 0); [reflexivity|lia|reflexivity]. Defined.

Lemma F_mat_step_witness :
  exists y, mv (F_mat (1 # 30)) xs18 = inr y /\ length y = 18 /\
    forall c, c < 6 ->
      nv (nth (3 * c) y NaN)
         (nval (nth (3 * c) xs18 NaN) + (1 # 30) * nval (nth (3 * c + 1) xs18 NaN)
          + (1 # 2) * (1 # 30) ^ 2 * nval (nth (3 * c + 2) xs18 NaN))%Q /\
      nv (nth (3 * c + 1) y NaN)
         (nval (nth (3 * c + 1) xs18 NaN) + (1 # 30) * nval (nth (3 * c + 2) xs18 NaN))%Q /\
      nv (nth (3 * c + 2) y NaN) (nval (nth (3 * c + 2) xs18 NaN)).
Proof. apply F_mat_step; reflexivity. Defined.

Lemma trim_span_witness :
  trim (A2 pm_gap) (A2 am_gap) empty_store =
    (Ok (mslice pm_gap 1 (3 + 1), mslice am_gap 1 (3 + 1)), empty_store).
Proof.
  apply trim_span.
  - discriminate.
  - lia.
  - simpl; lia.
  - reflexivity.
  - reflexivity.
  - intros k Hk. destruct k; [reflexivity|lia].
  - intros k H1 H2. simpl in H2. destruct k as [|[|[|[|[|k]]]]]; try lia; reflexivity.
Defined.

Lemma kf_core_initial_state_witness :
  exists ws x10,
    wlog (snd (kf_core lib0 pm_one am_one (1 # 30) 500 100 1 empty_store)) =
      ws ++ [(Tx, 1, 0, PVec x10); (TP, 0, 0, PMat (P_init 500));
             (Tx, 0, 0, PVec (init_layout (nth 0 (mdata pm_one) []) (nth 0 (mdata am_one) [])))] /\
    mv (F_mat (1 # 30)) (init_layout (nth 0 (mdata pm_one) []) (nth 0 (mdata am_one) [])) = inr x10.
Proof.
  apply kf_core_initial_state; try reflexivity; try lia;
    (apply Forall_cons; [reflexivity|constructor]).
Defined.

Lemma plot_poses_no_pose_witness : plot_poses track_late = inl (IndexError, 182).
Proof.
  apply plot_poses_no_pose. intros p Hp. cbn in Hp.
  repeat (destruct Hp as [Hp|Hp]; [discriminate|]). destruct Hp.
Defined.

Lemma plot_poses_arrows_witness :
  exists calls, plot_poses track_plot = inr calls /\ map fst calls = [Cb; Cr; Cg] /\
    forall i c arrows, nth_error calls i = Some (c, arrows) ->
      length arrows = length (present (firstn 100 track_plot)) /\
      forall j p, nth_error (present (firstn 100 track_plot)) j = Some p ->
        exists arrow, nth_error arrows j = Some arrow /\
          firstn 3 arrow = [p 0 3; p 1 3; p 2 3] /\ length arrow = 6 /\
          forall a, a < 3 -> nv (nth (3 + a) arrow NaN) (c001 * nval (p a i)).
Proof.
  apply plot_poses_arrows.
  - simpl. discriminate.
  - intros p a k Hin Ha Hk. simpl in Hin.
    destruct Hin as [E|[E|[E|[]]]]; try discriminate; injection E as <-; unfold pose_at;
      destruct a as [|[|[|a]]]; destruct k as [|[|[|k]]]; try lia; reflexivity.
Defined.

